(** * DBSentinel: the job lifecycle engine of [src/index.ts]

    A shallow embedding of the query validator, the type mapper, the
    admission gate, the job executor, the lookup and the cleanup sweeper,
    followed by the properties of the specification stated over it.

    Conventions of the embedding.
    - A JavaScript string is the [string] of its UTF-8 bytes: a character
      below U+0080 is one byte, any other character a sequence of two to
      four bytes from 128 on (an unpaired surrogate, the three bytes its
      code unit would have). [startsWith], [includes], the replacement of
      hyphens and the regular expression of the validator look for ASCII
      characters only, which are found among the bytes where they are found
      among the UTF-16 code units. [trim] removes every white space and line
      terminator of the language, whatever its length in bytes.
      [toUpperCase] follows the case tables of Unicode, which are not
      reproduced: it is the method of the class [CaseMapping], and what is
      proved of the validator is proved for every case mapping.
    - [throw new Error(m)] is the outcome [Throws (Error m)]; an [async]
      method is a computation of the monad [M], which threads the state of
      the outside world (database, queue, emitter, console, pool).
    - PostgreSQL, the Bull queue and the event emitter are collaborators:
      their behaviour on the statements this program sends is given by
      [execute], [emit] and the [Env] record. *)

From stdpp Require Import gmap strings list pretty.
From Stdlib Require Import ZArith Ascii Lia.


(** ** JavaScript strings *)

Module Js.

Definition code (c : ascii) : nat := nat_of_ascii c.

Definition between (lo hi : nat) (c : ascii) : bool :=
  (lo <=? code c)%nat && (code c <=? hi)%nat.

(** White space and line terminators, the characters removed by
    [String.prototype.trim]. Those of one byte: TAB, LF, VT, FF, CR and
    SPACE. *)
Definition isWhiteSpace (c : ascii) : bool :=
  between 9 13 c || (code c =? 32)%nat.

(** Of two bytes: U+00A0 (C2 A0). *)
Definition isWhiteSpace2 (a b : ascii) : bool :=
  (code a =? 194)%nat && (code b =? 160)%nat.

(** Of three bytes: U+1680 (E1 9A 80), U+2000 to U+200A (E2 80 80 to
    E2 80 8A), U+2028 and U+2029 (E2 80 A8, E2 80 A9), U+202F (E2 80 AF),
    U+205F (E2 81 9F), U+3000 (E3 80 80) and U+FEFF (EF BB BF). *)
Definition isWhiteSpace3 (a b c : ascii) : bool :=
  (code a =? 225)%nat && (code b =? 154)%nat && (code c =? 128)%nat
  || (code a =? 226)%nat && (code b =? 128)%nat
     && (between 128 138 c || between 168 169 c || (code c =? 175)%nat)
  || (code a =? 226)%nat && (code b =? 129)%nat && (code c =? 159)%nat
  || (code a =? 227)%nat && (code b =? 128)%nat && (code c =? 128)%nat
  || (code a =? 239)%nat && (code b =? 187)%nat && (code c =? 191)%nat.

(** The class [\w] of regular expressions: letters, digits, underscore. *)
Definition isWordChar (c : ascii) : bool :=
  between 65 90 c || between 97 122 c || between 48 57 c || (code c =? 95)%nat.

Definition upperChar (c : ascii) : ascii :=
  if between 97 122 c then ascii_of_nat (code c - 32) else c.

(** Case folding of a regular expression with flag [i] and without flag
    [u]: the ASCII letters go to upper case, and no character from U+0080
    on is folded to an ASCII one, so that its bytes are kept. *)
Fixpoint canonicalize (s : string) : string :=
  match s with
  | EmptyString => EmptyString
  | String c r => String (upperChar c) (canonicalize r)
  end.

(** [String.prototype.toUpperCase], by the case mappings of the Unicode
    Character Database. *)
Class CaseMapping : Type := { toUpperCase : string -> string }.

Fixpoint trimStart (s : string) : string :=
  match s with
  | EmptyString => EmptyString
  | String a r =>
      if isWhiteSpace a then trimStart r
      else
        match r with
        | EmptyString => s
        | String b r2 =>
            if isWhiteSpace2 a b then trimStart r2
            else
              match r2 with
              | EmptyString => s
              | String c r3 => if isWhiteSpace3 a b c then trimStart r3 else s
              end
        end
  end.

(** Nothing but white space and line terminators. *)
Fixpoint isBlank (s : string) : bool :=
  match s with
  | EmptyString => true
  | String a r =>
      isWhiteSpace a && isBlank r
      || match r with
         | EmptyString => false
         | String b r2 =>
             isWhiteSpace2 a b && isBlank r2
             || match r2 with
                | EmptyString => false
                | String c r3 => isWhiteSpace3 a b c && isBlank r3
                end
         end
  end.

Fixpoint trimEnd (s : string) : string :=
  match s with
  | EmptyString => EmptyString
  | String a r => if isBlank s then EmptyString else String a (trimEnd r)
  end.

Definition trim (s : string) : string := trimEnd (trimStart s).

(** [s.startsWith(p)] *)
Fixpoint startsWith (s p : string) : bool :=
  match p, s with
  | EmptyString, _ => true
  | String _ _, EmptyString => false
  | String a p', String b s' => Ascii.eqb a b && startsWith s' p'
  end.

(** [s.includes(p)] *)
Fixpoint includes (s p : string) : bool :=
  startsWith s p ||
  match s with
  | EmptyString => false
  | String _ r => includes r p
  end.

(** No character is mapped to or from a semicolon: the one fact of the
    case tables the validator depends on. *)
Definition keepsSemicolons (U : CaseMapping) : Prop :=
  ∀ s, includes (toUpperCase s) ";" = includes s ";".

(** [s.replace(/c/g, d)] for a one-character pattern [c]. *)
Fixpoint replaceAll (c d : ascii) (s : string) : string :=
  match s with
  | EmptyString => EmptyString
  | String a r => String (if Ascii.eqb a c then d else a) (replaceAll c d r)
  end.

(** [xs.join(sep)] *)
Fixpoint join (sep : string) (xs : list string) : string :=
  match xs with
  | [] => EmptyString
  | [x] => x
  | x :: rest => x +:+ sep +:+ join sep rest
  end.

(** Values of type [any] that reach this program: bind parameters and the
    cells of the rows the driver returns. A number that is a safe integer
    is [ANumber]; any value that is none of the first five (a number with a
    fraction or beyond the safe integers, a [Date], an object, an array) is
    [AOther], given by the string [String(v)] returns for it and by the
    text the driver binds for it. *)
Inductive Any : Type :=
  | AUndefined
  | ANull
  | ABool (b : bool)
  | ANumber (z : Z)
  | AString (s : string)
  | AOther (shown bound : string).



(** [String(v)]; a safe integer is printed with all its digits. *)
Definition toString (v : Any) : string :=
  match v with
  | AUndefined => "undefined"
  | ANull => "null"
  | ABool true => "true"
  | ABool false => "false"
  | ANumber z => pretty z
  | AString s => s
  | AOther shown _ => shown
  end.

(** The text the driver sends for a bind value that is not null:
    [toString()] of a number or a boolean, the string itself. *)
Definition bindText (v : Any) : string :=
  match v with
  | AOther _ bound => bound
  | _ => toString v
  end.

Inductive JsError : Type := Error (message : string).

Definition message (e : JsError) : string := let 'Error m := e in m.

(** How a call ends: it returns a value or throws. *)
Inductive Outcome (A : Type) : Type :=
  | Ok (a : A)
  | Throws (e : JsError).
Arguments Ok {A} a.
Arguments Throws {A} e.

End Js.
Import Js.

(** ** Regular expression of the validator

    [/\b(DROP|UPDATE|DELETE|INSERT|ALTER)\b/i]: one of the five words,
    compared letter by letter without regard to case, with a word boundary
    on either side. *)

Definition forbiddenWords : list string :=
  ["DROP"; "UPDATE"; "DELETE"; "INSERT"; "ALTER"].

(** The rest of [s] after the word [w] read at its head, if it is there. *)
Fixpoint readWord (w s : string) : option string :=
  match w, s with
  | EmptyString, _ => Some s
  | String _ _, EmptyString => None
  | String a w', String b s' =>
      if Ascii.eqb (upperChar b) a then readWord w' s' else None
  end.

(** [\b] before a word character: start of input or a non-word character. *)
Definition boundaryBefore (prev : option ascii) : bool :=
  match prev with
  | None => true
  | Some p => negb (isWordChar p)
  end.

(** [\b] after a word character: end of input or a non-word character. *)
Definition boundaryAfter (rest : string) : bool :=
  match rest with
  | EmptyString => true
  | String c _ => negb (isWordChar c)
  end.

Definition matchesHere (prev : option ascii) (s : string) : bool :=
  boundaryBefore prev &&
  existsb (fun w => match readWord w s with
                    | Some rest => boundaryAfter rest
                    | None => false
                    end) forbiddenWords.

Fixpoint scanFrom (prev : option ascii) (s : string) : bool :=
  matchesHere prev s ||
  match s with
  | EmptyString => false
  | String c r => scanFrom (Some c) r
  end.

(** [forbiddenRegex.test(query)] *)
Definition forbiddenRegexTest (query : string) : bool := scanFrom None query.

(** ** Type mapper *)

Definition mapPostgresType (pgTypeId : Z) : string :=
  match pgTypeId with
  | 20 | 21 | 23 => "INTEGER"
  | 700 | 701 => "DOUBLE PRECISION"
  | 1700 => "NUMERIC"
  | 16 => "BOOLEAN"
  | 1082 => "DATE"
  | 1114 | 1184 => "TIMESTAMP"
  | 114 | 3802 => "JSONB"
  | 25 | 1043 => "TEXT"
  | _ => "TEXT"
  end%Z.

(** ** Query validator *)

Definition NotASelectError : JsError :=
  Error "Only SELECT queries are allowed.".
Definition MultiStatementError : JsError :=
  Error "Semicolons are not permitted for security reasons.".
Definition ForbiddenKeywordError : JsError :=
  Error "Forbidden SQL keyword detected in the query.".

Definition validateSelectQuery {U : CaseMapping} (query : string) : Outcome unit :=
  let normalized := toUpperCase (trim query) in
  if negb (startsWith normalized "SELECT ") then Throws NotASelectError
  else if includes normalized ";" then Throws MultiStatementError
  else if forbiddenRegexTest query then Throws ForbiddenKeywordError
  else Ok tt.

(** ** The database as this program sees it *)

Record Field : Type := { name : string; dataTypeID : Z }.

(** A row object: its own properties in the order of their creation, each
    key once. *)
Definition Row : Type := list (string * Any).

Record QueryResult : Type := { fields : list Field; rows : list Row }.

Definition noRows : QueryResult := {| fields := []; rows := [] |}.

(** [row[key]] *)
Fixpoint getProp (row : Row) (key : string) : Any :=
  match row with
  | [] => AUndefined
  | (k, v) :: rest => if String.eqb k key then v else getProp rest key
  end.

(** An array index: the decimal form, without sign or leading zero, of an
    integer from 0 to 2^32 - 2. *)
Fixpoint digitsValue (acc : N) (s : string) : option N :=
  match s with
  | EmptyString => Some acc
  | String c r =>
      if between 48 57 c then digitsValue (acc * 10 + N.of_nat (code c - 48)) r
      else None
  end.

Definition arrayIndex (key : string) : option N :=
  match key with
  | EmptyString => None
  | String c r =>
      if (code c =? 48)%nat then
        match r with EmptyString => Some 0%N | String _ _ => None end
      else
        match digitsValue 0 key with
        | Some n => if (n <=? 4294967294)%N then Some n else None
        | None => None
        end
  end.

Fixpoint insertIndex (n : N) (key : string) (l : list (N * string)) : list (N * string) :=
  match l with
  | [] => [(n, key)]
  | (m, k) :: rest =>
      if (n <? m)%N then (n, key) :: l else (m, k) :: insertIndex n key rest
  end.

(** The keys that are array indices, by ascending index. *)
Definition indexKeys (ks : list string) : list string :=
  map snd
    (foldr (fun k acc => match arrayIndex k with
                         | Some n => insertIndex n k acc
                         | None => acc
                         end) [] ks).

Definition nameKeys (ks : list string) : list string :=
  filter (fun k => arrayIndex k = None) ks.

(** [Object.keys(row)]: the array indices in ascending order, then the
    other keys in the order of their creation. *)
Definition keys (row : Row) : list string :=
  indexKeys (map fst row) ++ nameKeys (map fst row).

(** A row of the control table [job_metadata]. [created_at] and the clock
    of the server count microseconds. *)
Record MetaRow : Type := { job_id : string; table_name : string; created_at : Z }.

Record Table : Type := {
  columns : list (string * string);
  content : list (list (string * option string))
}.

(** [job_metadata] is [None] until it is created; [tables] is the catalog
    of the other tables, by name. *)
Record Db : Type := {
  job_metadata : option (list MetaRow);
  tables : gmap string Table;
  now : Z
}.

Definition setMetadata (m : option (list MetaRow)) (d : Db) : Db :=
  {| job_metadata := m; tables := tables d; now := now d |}.

Definition setTables (t : gmap string Table) (d : Db) : Db :=
  {| job_metadata := job_metadata d; tables := t; now := now d |}.

(** The statements [client.query] and [dbPool.query] are called with. *)
Inductive Statement : Type :=
  | UserQuery (text : string) (values : list Any)
  | CreateMetadataTable
  | CreateTable (tableName : string) (cols : list (string * string))
  | InsertMetadata (jobId tableName : string)
  | InsertRow (tableName : string) (colNames : list string) (values : list (option string))
  | SelectTableName (jobId : string)
  | SelectOldJobs (ttlHours : Z)
  | DropTableIfExists (tableName : string)
  | DeleteMetadata (jobId : Any).

Definition dq : string := String (ascii_of_nat 34) EmptyString.

Definition quoted (s : string) : string := dq +:+ s +:+ dq.

Definition placeholders (n : nat) : string :=
  join ", " (map (fun i => "$" +:+ pretty (S i)) (seq 0 n)).

(** The text handed to the driver (layout white space of the multi-line
    templates left out). *)
Definition sqlText (s : Statement) : string :=
  match s with
  | UserQuery text _ => text
  | CreateMetadataTable =>
      "CREATE TABLE IF NOT EXISTS job_metadata (job_id TEXT PRIMARY KEY, table_name TEXT NOT NULL, created_at TIMESTAMP NOT NULL DEFAULT NOW())"
  | CreateTable t cols =>
      "CREATE TABLE " +:+ quoted t +:+ " (" +:+
      join ", " (map (fun c => quoted (fst c) +:+ " " +:+ snd c) cols) +:+ ")"
  | InsertMetadata _ _ =>
      "INSERT INTO job_metadata (job_id, table_name) VALUES ($1, $2)"
  | InsertRow t colNames _ =>
      "INSERT INTO " +:+ quoted t +:+ " (" +:+ join ", " (map quoted colNames) +:+
      ") VALUES (" +:+ placeholders (length colNames) +:+ ")"
  | SelectTableName _ =>
      "SELECT table_name FROM job_metadata WHERE job_id = $1"
  | SelectOldJobs ttl =>
      "SELECT job_id, table_name FROM job_metadata WHERE created_at < NOW() - INTERVAL '"
      +:+ pretty ttl +:+ " hour'"
  | DropTableIfExists t => "DROP TABLE IF EXISTS " +:+ quoted t
  | DeleteMetadata _ => "DELETE FROM job_metadata WHERE job_id = $1"
  end.

(** The bind values handed to the driver. *)
Definition sqlValues (s : Statement) : list Any :=
  match s with
  | UserQuery _ values => values
  | InsertMetadata j t => [AString j; AString t]
  | InsertRow _ _ values =>
      map (fun v => match v with Some x => AString x | None => ANull end) values
  | SelectTableName j => [AString j]
  | DeleteMetadata j => [j]
  | _ => []
  end.

Definition microsPerHour : Z := 3600000000.

(** [created_at < NOW() - INTERVAL 'ttl hour'] *)
Definition expired (ttlHours : Z) (d : Db) (r : MetaRow) : bool :=
  (created_at r <? now d - ttlHours * microsPerHour)%Z.

(** A bind value compared with a TEXT column: NULL equals nothing. *)
Definition equalsParam (v : Any) (s : string) : bool :=
  match v with
  | AUndefined | ANull => false
  | _ => String.eqb (bindText v) s
  end.

Definition missingRelation (r : string) : JsError :=
  Error ("relation " +:+ quoted r +:+ " does not exist").

Definition hasColumn (t : Table) (c : string) : bool :=
  existsb (fun col => String.eqb (fst col) c) (columns t).

(** ** The outside world *)

(** The data of a Bull job: [{ jobId, query, params }]. *)
Record QueueEntry : Type := { jobId : string; query : string; params : list Any }.

(** What an event carries: [{ jobId, tableName }] or the error caught. *)
Inductive Payload : Type :=
  | PCompleted (jobId tableName : string)
  | PFailed (error : JsError).

Definition Event : Type := (string * Payload)%type.

(** A listener returns ([None]) or throws. *)
Definition Listener : Type := Payload -> option JsError.

Record World : Type := {
  db : Db;
  waiting : list QueueEntry;        (* entries of the queue not yet picked up *)
  emitted : list Event;             (* events raised on the emitter, oldest first *)
  console : list (list string);     (* calls of console.error *)
  sent : list Statement;            (* statements handed to the driver, oldest first *)
  leased : nat                      (* connections checked out of the pool *)
}.

(** What the collaborators decide. *)
Record Env : Type := {
  (* dbPool.connect() rejecting *)
  connect_error : option JsError;
  (* the n-th statement handed to the driver failing for a reason of the
     server or the network *)
  fault : nat -> option JsError;
  (* PostgreSQL evaluating the text of a client's query, which reads only *)
  run_query : string -> list Any -> Db -> Outcome QueryResult;
  (* the listeners registered on the emitter, by event name *)
  listeners : string -> list Listener;
  (* queryQueue.add() rejecting *)
  enqueue_error : option JsError
}.

Definition setDb (d : Db) (w : World) : World :=
  {| db := d; waiting := waiting w; emitted := emitted w; console := console w;
     sent := sent w; leased := leased w |}.

Definition enqueue (e : QueueEntry) (w : World) : World :=
  {| db := db w; waiting := waiting w ++ [e]; emitted := emitted w;
     console := console w; sent := sent w; leased := leased w |}.

Definition raise (ev : Event) (w : World) : World :=
  {| db := db w; waiting := waiting w; emitted := emitted w ++ [ev];
     console := console w; sent := sent w; leased := leased w |}.

Definition consoleError (line : list string) (w : World) : World :=
  {| db := db w; waiting := waiting w; emitted := emitted w;
     console := console w ++ [line]; sent := sent w; leased := leased w |}.

Definition logStatement (s : Statement) (w : World) : World :=
  {| db := db w; waiting := waiting w; emitted := emitted w; console := console w;
     sent := sent w ++ [s]; leased := leased w |}.

Definition lease (w : World) : World :=
  {| db := db w; waiting := waiting w; emitted := emitted w; console := console w;
     sent := sent w; leased := S (leased w) |}.

Definition release (w : World) : World :=
  {| db := db w; waiting := waiting w; emitted := emitted w; console := console w;
     sent := sent w; leased := pred (leased w) |}.

(** PostgreSQL on the statements of this program. *)
Definition execute (env : Env) (s : Statement) (d : Db) : Outcome (QueryResult * Db) :=
  match s with
  | UserQuery text values =>
      match run_query env text values d with
      | Ok r => Ok (r, d)
      | Throws e => Throws e
      end
  | CreateMetadataTable =>
      match job_metadata d with
      | Some _ => Ok (noRows, d)
      | None => Ok (noRows, setMetadata (Some []) d)
      end
  | CreateTable t cols =>
      match tables d !! t with
      | Some _ => Throws (Error ("relation " +:+ quoted t +:+ " already exists"))
      | None =>
          if bool_decide (NoDup (map fst cols))
          then Ok (noRows, setTables (<[t := {| columns := cols; content := [] |}]> (tables d)) d)
          else Throws (Error "column specified more than once")
      end
  | InsertMetadata j t =>
      match job_metadata d with
      | None => Throws (missingRelation "job_metadata")
      | Some ms =>
          if existsb (fun m => String.eqb (job_id m) j) ms
          then Throws (Error "duplicate key value violates unique constraint")
          else Ok (noRows,
                   setMetadata (Some (ms ++ [{| job_id := j; table_name := t; created_at := now d |}])) d)
      end
  | InsertRow t colNames values =>
      match tables d !! t with
      | None => Throws (missingRelation t)
      | Some tb =>
          if forallb (hasColumn tb) colNames && (length colNames =? length values)%nat
          then Ok (noRows,
                   setTables (<[t := {| columns := columns tb;
                                        content := content tb ++ [zip colNames values] |}]> (tables d)) d)
          else Throws (Error "column does not exist")
      end
  | SelectTableName j =>
      match job_metadata d with
      | None => Throws (missingRelation "job_metadata")
      | Some ms =>
          Ok ({| fields := [{| name := "table_name"; dataTypeID := 25 |}];
                 rows := map (fun m => [("table_name", AString (table_name m))])
                             (filter (fun m => String.eqb (job_id m) j = true) ms) |}, d)
      end
  | SelectOldJobs ttl =>
      match job_metadata d with
      | None => Throws (missingRelation "job_metadata")
      | Some ms =>
          Ok ({| fields := [{| name := "job_id"; dataTypeID := 25 |};
                            {| name := "table_name"; dataTypeID := 25 |}];
                 rows := map (fun m => [("job_id", AString (job_id m));
                                        ("table_name", AString (table_name m))])
                             (filter (fun m => expired ttl d m = true) ms) |}, d)
      end
  | DropTableIfExists t => Ok (noRows, setTables (delete t (tables d)) d)
  | DeleteMetadata j =>
      match job_metadata d with
      | None => Throws (missingRelation "job_metadata")
      | Some ms =>
          Ok (noRows, setMetadata (Some (filter (fun m => equalsParam j (job_id m) = false) ms)) d)
      end
  end.

(** ** Asynchronous computations *)

Definition M (A : Type) : Type := World -> Outcome A * World.

Definition ret {A} (a : A) : M A := fun w => (Ok a, w).

Definition bind {A B} (m : M A) (k : A -> M B) : M B := fun w =>
  match m w with
  | (Ok a, w') => k a w'
  | (Throws e, w') => (Throws e, w')
  end.

Declare Scope async_scope.
Delimit Scope async_scope with async.
Notation "x <- m ;; k" := (bind m (fun x => k))
  (at level 100, m at next level, right associativity) : async_scope.
Notation "m ;; k" := (bind m (fun _ => k))
  (at level 100, right associativity) : async_scope.
Local Open Scope async_scope.

(** [try { body } catch (e) { handler }] *)
Definition tryCatch {A} (body : M A) (handler : JsError -> M A) : M A := fun w =>
  match body w with
  | (Ok a, w') => (Ok a, w')
  | (Throws e, w') => handler e w'
  end.

(** [try { body } finally { fin }], for a [fin] that does not throw. *)
Definition finally {A} (body : M A) (fin : World -> World) : M A := fun w =>
  let '(r, w') := body w in (r, fin w').

Definition throw {A} (e : JsError) : M A := fun w => (Throws e, w).

(** [for (const x of xs) { body }] *)
Fixpoint forEach {A} (xs : list A) (body : A -> M unit) : M unit :=
  match xs with
  | [] => ret tt
  | x :: rest => body x ;; forEach rest body
  end.

(** [dbPool.connect()] *)
Definition connect (env : Env) : M unit := fun w =>
  match connect_error env with
  | Some e => (Throws e, w)
  | None => (Ok tt, lease w)
  end.

(** [client.query(...)] *)
Definition clientQuery (env : Env) (s : Statement) : M QueryResult := fun w =>
  let w' := logStatement s w in
  match fault env (length (sent w)) with
  | Some e => (Throws e, w')
  | None =>
      match execute env s (db w) with
      | Ok (r, d) => (Ok r, setDb d w')
      | Throws e => (Throws e, w')
      end
  end.

(** [dbPool.query(...)]: a connection is taken for the one statement. *)
Definition poolQuery (env : Env) (s : Statement) : M QueryResult :=
  connect env ;; finally (clientQuery env s) release.

(** The first listener that throws, if any. *)
Fixpoint callListeners (ls : list Listener) (p : Payload) : option JsError :=
  match ls with
  | [] => None
  | l :: rest => match l p with
                 | Some e => Some e
                 | None => callListeners rest p
                 end
  end.

(** [this.emit(name, payload)]: the listeners run inside the call, and what
    one of them throws leaves [emit]. *)
Definition emit (env : Env) (eventName : string) (p : Payload) : M unit := fun w =>
  let w' := raise (eventName, p) w in
  match callListeners (listeners env eventName) p with
  | Some e => (Throws e, w')
  | None => (Ok tt, w')
  end.

(** ** The class [DBSentinel] *)





(** The handle [setInterval] returns. *)
Inductive Timer : Type := Interval (ms : Z).

Record Sentinel : Type := {
  concurrency : Z;
  maxQueueSize : Z;
  cleanupIntervalMs : Z;
  tableTTLHours : Z;
  cleanupTimer : option Timer;
  initialized : bool
}.

(** The fields as the class declares them. *)
Definition newSentinel : Sentinel :=
  {| concurrency := 1; maxQueueSize := 100; cleanupIntervalMs := 3600000;
     tableTTLHours := 24; cleanupTimer := None; initialized := false |}.







Definition SENTINEL_JOB_COMPLETED (jobId : string) : string := "job-completed:" +:+ jobId.
Definition SENTINEL_JOB_FAILED (jobId : string) : string := "job-failed:" +:+ jobId.

Definition QueueFullError (this : Sentinel) : JsError :=
  Error ("Maximum queue size of " +:+ pretty (maxQueueSize this) +:+ " reached.").

(** [queryQueue.getWaitingCount()], when the queue answers. A call of
    [createQueryJob] in which this read is itself rejected (the connection
    to Redis is lost) ends with that rejection before anything else is
    done, nothing being enqueued; [createQueryJob] below is the method from
    the count read onwards. *)
Definition getWaitingCount (w : World) : Z := Z.of_nat (length (waiting w)).

(** [createQueryJob(query, params)]; [uuid] is what [crypto.randomUUID()]
    returns in this call. *)
Definition createQueryJob {U : CaseMapping} (this : Sentinel) (env : Env) (uuid : string)
    (query : string) (params : list Any) : M string := fun w =>
  let waitingCount := getWaitingCount w in
  if (maxQueueSize this <=? waitingCount)%Z then (Throws (QueueFullError this), w)
  else
    match validateSelectQuery query with
    | Throws e => (Throws e, w)
    | Ok _ =>
        let jobId := uuid in
        match enqueue_error env with
        | Some err => (Throws (Error ("Unable to enqueue job: " +:+ message err)), w)
        | None => (Ok jobId, enqueue {| jobId := jobId; query := query; params := params |} w)
        end
    end.

(** [getTableNameForJob(jobId)]: a string, or [null]. *)
Definition getTableNameForJob (env : Env) (jobId : string) : M Any :=
  tryCatch
    (result <- poolQuery env (SelectTableName jobId) ;;
     match rows result with
     | row :: _ => ret (getProp row "table_name")
     | [] => ret ANull
     end)
    (fun err => throw (Error ("Error retrieving table name: " +:+ message err))).

(** The name of the result table of a job (line 189). *)
Definition tableNameOf (jobId : string) : string :=
  "query_results_" +:+ replaceAll "-" "_" jobId.

(** [rowObj[c] !== null && rowObj[c] !== undefined ? String(rowObj[c]) : null] *)
Definition cellText (row : Row) (c : string) : option string :=
  match getProp row c with
  | ANull | AUndefined => None
  | v => Some (toString v)
  end.

(** The body of the loop over the rows fetched (lines 222 to 234). *)
Definition insertRowOf (env : Env) (tableName : string) (row : Row) : M unit :=
  let colNames := keys row in
  let values := map (cellText row) colNames in
  clientQuery env (InsertRow tableName colNames values) ;; ret tt.

(** The body of the [try] of [handleJob] up to the last insert (lines 186
    to 235): steps 1 to 5. *)
Definition runSteps (env : Env) (job : QueueEntry) : M string :=
  let metaQuery := query job +:+ " LIMIT 0" in
  metaResult <- clientQuery env (UserQuery metaQuery (params job)) ;;
  let fields := fields metaResult in
  let tableName := tableNameOf (jobId job) in
  clientQuery env CreateMetadataTable ;;
  let cols := map (fun field => (name field, mapPostgresType (dataTypeID field))) fields in
  clientQuery env (CreateTable tableName cols) ;;
  clientQuery env (InsertMetadata (jobId job) tableName) ;;
  dataResult <- clientQuery env (UserQuery (query job) (params job)) ;;
  forEach (rows dataResult) (insertRowOf env tableName) ;;
  ret tableName.

(** [handleJob(job)]; it resolves to [{ tableName }]. *)
Definition handleJob (env : Env) (job : QueueEntry) : M string :=
  connect env ;;
  finally
    (tryCatch
       (tableName <- runSteps env job ;;
        emit env (SENTINEL_JOB_COMPLETED (jobId job)) (PCompleted (jobId job) tableName) ;;
        ret tableName)
       (fun error =>
          emit env (SENTINEL_JOB_FAILED (jobId job)) (PFailed error) ;;
          throw error))
    release.

(** The body of the loop of [cleanupOldTables]. *)
Definition sweepRow (env : Env) (row : Row) : M unit :=
  let job_id := getProp row "job_id" in
  let table_name := getProp row "table_name" in
  tryCatch
    (clientQuery env (DropTableIfExists (toString table_name)) ;;
     clientQuery env (DeleteMetadata job_id) ;;
     ret tt)
    (fun dropError => fun w =>
       (Ok tt, consoleError ["Error dropping table:"; toString table_name; message dropError] w)).

Definition cleanupOldTables (this : Sentinel) (env : Env) : M unit :=
  connect env ;;
  finally
    (result <- clientQuery env (SelectOldJobs (tableTTLHours this)) ;;
     forEach (rows result) (sweepRow env))
    release.

(** What the timer of [setupCleanupTimer] runs at each tick; the instance
    comes back as the callback leaves it. *)
Definition cleanupTick (this : Sentinel) (env : Env) (w : World) : Sentinel * World :=
  match cleanupOldTables this env w with
  | (Ok _, w') => (this, w')
  | (Throws err, w') => (this, consoleError ["Error during table cleanup:"; message err] w')
  end.

(** ** Job identifiers and table names *)

Fixpoint allChars (p : ascii -> bool) (s : string) : bool :=
  match s with
  | EmptyString => true
  | String c r => p c && allChars p r
  end.

Definition isHexDigit (c : ascii) : bool := between 48 57 c || between 97 102 c.

(** The text of a UUID, read from position [i]: a hyphen at positions 8,
    13, 18 and 23, a lower-case hexadecimal digit elsewhere, 36 characters
    in all. *)
Fixpoint uuidFrom (i : nat) (s : string) : bool :=
  match s with
  | EmptyString => (i =? 36)%nat
  | String c r =>
      (if (i =? 8)%nat || (i =? 13)%nat || (i =? 18)%nat || (i =? 23)%nat
       then Ascii.eqb c "-" else isHexDigit c)
      && uuidFrom (S i) r
  end.

(** The strings [crypto.randomUUID()] returns (RFC 4122, section 3), the
    only job identifiers [createQueryJob] makes. *)
Definition isUUID (s : string) : bool := uuidFrom 0 s.

Definition isLetter (c : ascii) : bool := between 65 90 c || between 97 122 c.

(** An SQL identifier that needs no quoting: a letter or an underscore,
    then letters, digits and underscores, within the 63 bytes PostgreSQL
    keeps of a name. *)
Definition validIdentifier (s : string) : bool :=
  match s with
  | EmptyString => false
  | String c r =>
      (isLetter c || Ascii.eqb c "_") && allChars isWordChar r
      && (String.length s <=? 63)%nat
  end.

(** The derivation of the table name in the words of the specification:
    the namespace token, then the identifier with every non-identifier
    character replaced by an underscore. *)
Fixpoint replaceNonIdentifier (s : string) : string :=
  match s with
  | EmptyString => EmptyString
  | String c r => String (if isWordChar c then c else "_"%char) (replaceNonIdentifier r)
  end.

Definition specTableName (jobId : string) : string :=
  "query_results_" +:+ replaceNonIdentifier jobId.

Definition uuidChar (c : ascii) : bool := isHexDigit c || Ascii.eqb c "-".

(** The type identifiers [mapPostgresType] has a case for, other than the
    string types. *)
Definition recognizedTypeIds : list Z :=
  [20; 21; 23; 700; 701; 1700; 16; 1082; 1114; 1184; 114; 3802]%Z.

Fixpoint hasChar (c : ascii) (s : string) : bool :=
  match s with
  | EmptyString => false
  | String a r => Ascii.eqb c a || hasChar c r
  end.

(** The admission check of [createQueryJob]. *)
Definition queueFull (this : Sentinel) (w : World) : bool :=
  (maxQueueSize this <=? getWaitingCount w)%Z.

(** ** Metadata rows and the tables they name *)

Definition metadataRows (d : Db) : list MetaRow :=
  match job_metadata d with
  | Some ms => ms
  | None => []
  end.

(** A metadata row that names a table the catalog does not have. *)
Definition orphaned (d : Db) (m : MetaRow) : Prop :=
  m ∈ metadataRows d ∧ tables d !! table_name m = None.

(** What a computation leaves alone apart from the database and the log of
    statements. *)
Definition frame (w w' : World) : Prop :=
  emitted w' = emitted w ∧ waiting w' = waiting w
  ∧ console w' = console w ∧ leased w' = leased w.

(** The catalog keeps its tables, and every metadata row that is new names
    a table of the catalog. *)
Definition dbExtends (d d' : Db) : Prop :=
  (∀ t, is_Some (tables d !! t) -> is_Some (tables d' !! t))
  ∧ (∀ m, m ∈ metadataRows d' -> m ∈ metadataRows d ∨ is_Some (tables d' !! table_name m)).

(** A statement that, if it carries a client's text, carries the query of
    the job with the bind values of the job. *)
Definition fromJob (job : QueueEntry) (s : Statement) : Prop :=
  ∀ t v, s = UserQuery t v -> t = query job ∧ v = params job.

(** The row object the driver builds for a row of [job_metadata] selected
    by the sweep. *)
Definition sweepRowOf (m : MetaRow) : Row :=
  [("job_id", AString (job_id m)); ("table_name", AString (table_name m))].

(** How the sweep ended on one row. *)
Inductive RowOutcome : Type :=
  | Swept
  | DropFailed (e : JsError)
  | DeleteFailed (e : JsError).

(** The statements sent for a row, by outcome. *)
Definition rowStatements (m : MetaRow) (o : RowOutcome) : list Statement :=
  match o with
  | DropFailed _ => [DropTableIfExists (table_name m)]
  | _ => [DropTableIfExists (table_name m); DeleteMetadata (AString (job_id m))]
  end.

(** The lines written to the console for a row, by outcome. *)
Definition rowConsole (m : MetaRow) (o : RowOutcome) : list (list string) :=
  match o with
  | Swept => []
  | DropFailed e | DeleteFailed e => [["Error dropping table:"; table_name m; message e]]
  end.

(** What the sweep of the row [m] has made of it, from the database [d]
    before the sweep to the database [d'] after it, by outcome: a row swept
    is gone and so is its table; when the DROP failed the row is there and
    its table is as it was; when the DELETE failed the row is there and its
    table is gone. *)
Definition rowResult (d d' : Db) (m : MetaRow) (o : RowOutcome) : Prop :=
  match o with
  | Swept => (m ∉ metadataRows d') ∧ tables d' !! table_name m = None
  | DropFailed _ =>
      m ∈ metadataRows d' ∧ tables d' !! table_name m = tables d !! table_name m
  | DeleteFailed _ => m ∈ metadataRows d' ∧ tables d' !! table_name m = None
  end.

(** ** The lookup and the sweep, step by step *)

(** The error [dbPool.query] rejects with in [getTableNameForJob], if it
    does: no connection, a failure of the server, or no table
    [job_metadata] yet. *)
Definition lookupFailure (env : Env) (w : World) : option JsError :=
  match connect_error env with
  | Some e => Some e
  | None =>
      match fault env (length (sent w)) with
      | Some e => Some e
      | None =>
          match job_metadata (db w) with
          | None => Some (missingRelation "job_metadata")
          | Some _ => None
          end
      end
  end.

Definition RetrievalError (err : JsError) : JsError :=
  Error ("Error retrieving table name: " +:+ message err).

(** [DROP TABLE IF EXISTS] and [DELETE FROM job_metadata] on the database. *)
Definition dropTable (t : string) (d : Db) : Db := setTables (delete t (tables d)) d.

Definition deleteRowsOf (j : string) (d : Db) : Db :=
  setMetadata (Some (filter (fun m => String.eqb j (job_id m) = false) (metadataRows d))) d.

(** The database after the sweep of a row, by outcome. *)
Definition rowEffect (m : MetaRow) (o : RowOutcome) (d : Db) : Db :=
  match o with
  | DropFailed _ => d
  | DeleteFailed _ => dropTable (table_name m) d
  | Swept => deleteRowsOf (job_id m) (dropTable (table_name m) d)
  end.

(** How the sweep of a row ends in a world: the failure of the server on
    the DROP or on the DELETE if there is one, a DELETE refused for want of
    the table [job_metadata], or success. *)
Definition rowOutcome (env : Env) (w : World) : RowOutcome :=
  match fault env (length (sent w)) with
  | Some e => DropFailed e
  | None =>
      match fault env (S (length (sent w))) with
      | Some e => DeleteFailed e
      | None =>
          match job_metadata (db w) with
          | None => DeleteFailed (missingRelation "job_metadata")
          | Some _ => Swept
          end
      end
  end.

(** The world after the sweep of a row. *)
Definition afterRow (m : MetaRow) (o : RowOutcome) (w : World) : World :=
  {| db := rowEffect m o (db w); waiting := waiting w; emitted := emitted w;
     console := console w ++ rowConsole m o; sent := sent w ++ rowStatements m o;
     leased := leased w |}.

(** The worlds and outcomes of the sweep of a list of rows, in order. *)
Fixpoint sweepOutcomes (env : Env) (ms : list MetaRow) (w : World) : list RowOutcome :=
  match ms with
  | [] => []
  | m :: rest => rowOutcome env w :: sweepOutcomes env rest (afterRow m (rowOutcome env w) w)
  end.

Fixpoint afterRows (env : Env) (ms : list MetaRow) (w : World) : World :=
  match ms with
  | [] => w
  | m :: rest => afterRows env rest (afterRow m (rowOutcome env w) w)
  end.

(** ** Whole words, plans and runs *)

Fixpoint lastChar (s : string) : option ascii :=
  match s with
  | EmptyString => None
  | String c r => match lastChar r with
                  | Some l => Some l
                  | None => Some c
                  end
  end.

(** [q] holds one of the forbidden words as a whole word, in any mix of
    cases: no word character stands right before it or right after it. *)
Definition holdsForbiddenWord (q : string) : Prop :=
  ∃ pre w post,
    q = pre +:+ w +:+ post
    ∧ canonicalize w ∈ forbiddenWords
    ∧ boundaryBefore (lastChar pre) = true
    ∧ boundaryAfter post = true.

(** The storage types [mapPostgresType] can return. *)
Definition storageTypes : list string :=
  ["INTEGER"; "DOUBLE PRECISION"; "NUMERIC"; "BOOLEAN"; "DATE"; "TIMESTAMP"; "JSONB"; "TEXT"].

(** One call of [createQueryJob]: the identifier drawn and the arguments. *)
Record Request : Type := { req_uuid : string; req_query : string; req_params : list Any }.

(** Calls of [createQueryJob] one after the other. *)
Fixpoint submitAll {U : CaseMapping} (this : Sentinel) (env : Env) (reqs : list Request)
    (w : World) : World :=
  match reqs with
  | [] => w
  | r :: rest =>
      submitAll this env rest
        (snd (createQueryJob this env (req_uuid r) (req_query r) (req_params r) w))
  end.

(** The columns [handleJob] declares for the fields of the probe. *)
Definition resultColumns (fs : list Field) : list (string * string) :=
  map (fun field => (name field, mapPostgresType (dataTypeID field))) fs.


Definition insertStatement (tableName : string) (row : Row) : Statement :=
  InsertRow tableName (keys row) (map (cellText row) (keys row)).

(** The statements of a job whose probe has the fields [fs] and whose
    query returns the rows [rs], in the order of the source. *)
Definition jobPlan (job : QueueEntry) (fs : list Field) (rs : list Row) : list Statement :=
  [UserQuery (query job +:+ " LIMIT 0") (params job);
   CreateMetadataTable;
   CreateTable (tableNameOf (jobId job)) (resultColumns fs);
   InsertMetadata (jobId job) (tableNameOf (jobId job));
   UserQuery (query job) (params job)]
  ++ map (insertStatement (tableNameOf (jobId job))) rs.

(** What the server answers a query of a client with on the database
    [d]; nothing when it refuses the query. *)
Definition answerOf (env : Env) (text : string) (values : list Any) (d : Db) : QueryResult :=
  match run_query env text values d with
  | Ok r => r
  | Throws _ => noRows
  end.

(** The fields the probe of a job has on the database [d]. *)
Definition probedFields (env : Env) (job : QueueEntry) (d : Db) : list Field :=
  fields (answerOf env (query job +:+ " LIMIT 0") (params job) d).

(** The database [d] once the table of a job, with a column for each of the
    fields [fs], and its metadata row are in. *)
Definition registered (job : QueueEntry) (fs : list Field) (d : Db) : Db :=
  {| job_metadata :=
       Some (metadataRows d ++
             [{| job_id := jobId job; table_name := tableNameOf (jobId job);
                 created_at := now d |}]);
     tables := <[tableNameOf (jobId job) :=
                   {| columns := resultColumns fs; content := [] |}]> (tables d);
     now := now d |}.

(** The rows the query of a job has when it is run, after the table and
    the metadata row are in. *)
Definition fetchedRows (env : Env) (job : QueueEntry) (d : Db) : list Row :=
  rows (answerOf env (query job) (params job) (registered job (probedFields env job d) d)).

(** The statements of a job picked up on the database [d]. *)
Definition planOf (env : Env) (job : QueueEntry) (d : Db) : list Statement :=
  jobPlan job (probedFields env job d) (fetchedRows env job d).


(** The clock of the server moved to [t]. *)
Definition atTime (t : Z) (w : World) : World :=
  setDb {| job_metadata := job_metadata (db w); tables := tables (db w); now := t |} w.

(** ** Worlds and environments used as test inputs *)

Module Fixture.

(** A case mapping to run the examples with: the ASCII letters, and the
    long s, U+017F (C5 BF), whose upper case is S; every other character is
    kept as it is. *)
Fixpoint upperCase (s : string) : string :=
  match s with
  | EmptyString => EmptyString
  | String a r =>
      match r with
      | EmptyString => String (upperChar a) EmptyString
      | String b r2 =>
          if (code a =? 197)%nat && (code b =? 191)%nat then String "S" (upperCase r2)
          else String (upperChar a) (upperCase r)
      end
  end.

Definition caseMapping : CaseMapping := {| toUpperCase := upperCase |}.

(** U+00A0, the no-break space, and U+017F, the long s. *)
Definition nbsp : string :=
  String (ascii_of_nat 194) (String (ascii_of_nat 160) EmptyString).
Definition longS : string :=
  String (ascii_of_nat 197) (String (ascii_of_nat 191) EmptyString).

Definition uuidA : string := "1b4e28ba-2fa1-41d2-883f-0016d3cca427".
Definition uuidB : string := "6fa459ea-ee8a-4ca4-894e-db77e160355e".

(** A server that answers every client query with one INTEGER column [x]:
    no row for the probe, one row otherwise. *)
Definition answer (text : string) (_ : list Any) (_ : Db) : Outcome QueryResult :=
  Ok {| fields := [{| name := "x"; dataTypeID := 23 |}];
        rows := if includes text " LIMIT 0" then [] else [[("x", ANumber 1)]] |}.

Definition noFault : nat -> option JsError := fun _ => None.

Definition env0 : Env :=
  {| connect_error := None; fault := noFault; run_query := answer;
     listeners := fun _ => []; enqueue_error := None |}.

(** The pool cannot reach the database. *)
Definition envPoolDown : Env :=
  {| connect_error := Some (Error "connect ECONNREFUSED 127.0.0.1:5432");
     fault := noFault; run_query := answer;
     listeners := fun _ => []; enqueue_error := None |}.

(** The listener of the completion event of [uuidA] throws. *)
Definition envThrowingListener : Env :=
  {| connect_error := None; fault := noFault; run_query := answer;
     listeners := fun eventName =>
       if String.eqb eventName (SENTINEL_JOB_COMPLETED uuidA)
       then [fun _ => Some (Error "listener failed")] else [];
     enqueue_error := None |}.

(** The statement of index [n] fails. *)
Definition envFaultAt (n : nat) : Env :=
  {| connect_error := None;
     fault := fun i => if (i =? n)%nat then Some (Error "connection terminated") else None;
     run_query := answer; listeners := fun _ => []; enqueue_error := None |}.

Definition emptyDb : Db := {| job_metadata := None; tables := ∅; now := 0 |}.

Definition world (d : Db) (q : list QueueEntry) : World :=
  {| db := d; waiting := q; emitted := []; console := []; sent := []; leased := 0 |}.

Definition w0 : World := world emptyDb [].

Definition jobA : QueueEntry :=
  {| jobId := uuidA; query := "SELECT 1 AS x"; params := [ANumber 5] |}.

Definition jobB : QueueEntry :=
  {| jobId := uuidB; query := "SELECT 2 AS x"; params := [] |}.

(** An instance that admits one waiting entry, and a queue that holds one. *)
Definition smallSentinel : Sentinel :=
  {| concurrency := 1; maxQueueSize := 1; cleanupIntervalMs := 3600000;
     tableTTLHours := 24; cleanupTimer := Some (Interval 3600000); initialized := true |}.

Definition fullWorld : World := world emptyDb [jobA].

(** Two days after the epoch, with one table created at the epoch and one
    an hour ago. *)
Definition twoDays : Z := 48 * microsPerHour.

Definition oldRow : MetaRow :=
  {| job_id := uuidA; table_name := tableNameOf uuidA; created_at := 0 |}.
Definition freshRow : MetaRow :=
  {| job_id := uuidB; table_name := tableNameOf uuidB; created_at := 47 * microsPerHour |}.

Definition someTable : Table := {| columns := [("x", "INTEGER")]; content := [] |}.

Definition sweepDb : Db :=
  {| job_metadata := Some [oldRow; freshRow];
     tables := <[tableNameOf uuidA := someTable]> (<[tableNameOf uuidB := someTable]> ∅);
     now := twoDays |}.

(** A server that refuses every client query. *)
Definition refuse (_ : string) (_ : list Any) (_ : Db) : Outcome QueryResult :=
  Throws (Error "column nope does not exist").

Definition envRefusing : Env :=
  {| connect_error := None; fault := noFault; run_query := refuse;
     listeners := fun _ => []; enqueue_error := None |}.

(** What [answer] returns for the probe and for the query of [jobA]. *)
Definition probeA : QueryResult :=
  {| fields := [{| name := "x"; dataTypeID := 23 |}]; rows := [] |}.

(** Three calls: a valid query, a statement that is no SELECT, a valid
    query again. *)
Definition requests : list Request :=
  [{| req_uuid := uuidA; req_query := "SELECT 1 AS x"; req_params := [ANumber 5] |};
   {| req_uuid := uuidB; req_query := "DROP TABLE users"; req_params := [] |};
   {| req_uuid := uuidB; req_query := "SELECT 2 AS x"; req_params := [] |}].

(** The world once [jobA] has run. *)
Definition afterJobA : World := snd (handleJob env0 jobA w0).

Definition sweepWorld : World := world sweepDb [].

End Fixture.

(** * Properties *)

#[local] Set Warnings "-clear-no-such-hyp".

(** ** Strings *)

Section StringFacts.

Lemma includes_char (c : ascii) (s : string) :
  includes s (String c EmptyString) = hasChar c s.
Proof.
  induction s as [|a r IH]; simpl; [reflexivity|].
  rewrite IH. destruct r; simpl; rewrite andb_true_r; reflexivity.
Qed.

Lemma eqb_code (c a : ascii) : code c ≠ code a -> Ascii.eqb c a = false.
Proof. intros H. apply Ascii.eqb_neq. intros ->. apply H. reflexivity. Qed.

Lemma isWhiteSpace_code a : isWhiteSpace a = true -> (code a < 128)%nat.
Proof.
  unfold isWhiteSpace, between.
  rewrite orb_true_iff, andb_true_iff, Nat.eqb_eq, !Nat.leb_le. lia.
Qed.

Lemma isWhiteSpace2_code a b :
  isWhiteSpace2 a b = true -> (128 <= code a)%nat ∧ (128 <= code b)%nat.
Proof.
  unfold isWhiteSpace2. rewrite andb_true_iff, !Nat.eqb_eq. lia.
Qed.

Lemma isWhiteSpace3_code a b c :
  isWhiteSpace3 a b c = true ->
  (128 <= code a)%nat ∧ (128 <= code b)%nat ∧ (128 <= code c)%nat.
Proof.
  unfold isWhiteSpace3, between.
  repeat rewrite ?orb_true_iff, ?andb_true_iff, ?Nat.eqb_eq, ?Nat.leb_le. lia.
Qed.

Section Trim.

(** A character of one byte that is not white space. *)
Variable c : ascii.
Hypothesis (notSpace : isWhiteSpace c = false) (oneByte : (code c < 128)%nat).

Lemma skip1 a : isWhiteSpace a = true -> Ascii.eqb c a = false.
Proof.
  intros H. apply Ascii.eqb_neq. intros ->. congruence.
Qed.

Lemma skip2 a b : isWhiteSpace2 a b = true -> Ascii.eqb c a = false ∧ Ascii.eqb c b = false.
Proof.
  intros H. apply isWhiteSpace2_code in H. split; apply eqb_code; lia.
Qed.

Lemma skip3 a b d :
  isWhiteSpace3 a b d = true ->
  Ascii.eqb c a = false ∧ Ascii.eqb c b = false ∧ Ascii.eqb c d = false.
Proof.
  intros H. apply isWhiteSpace3_code in H. repeat split; apply eqb_code; lia.
Qed.

Lemma hasChar_trimStart_le : ∀ n s, (String.length s <= n)%nat ->
  hasChar c (trimStart s) = hasChar c s.
Proof.
  induction n as [|n IH]; intros s Hn.
  - destruct s; [reflexivity|simpl in Hn; lia].
  - destruct s as [|a r]; [reflexivity|]. simpl in Hn.
    cbn [trimStart]. destruct (isWhiteSpace a) eqn:W1.
    { rewrite IH by lia. cbn [hasChar]. rewrite (skip1 _ W1). reflexivity. }
    destruct r as [|b r2]; [reflexivity|]. simpl in Hn.
    destruct (isWhiteSpace2 a b) eqn:W2.
    { rewrite IH by lia. cbn [hasChar]. destruct (skip2 _ _ W2) as [-> ->]. reflexivity. }
    destruct r2 as [|d r3]; [reflexivity|]. simpl in Hn.
    destruct (isWhiteSpace3 a b d) eqn:W3; [|reflexivity].
    rewrite IH by lia. cbn [hasChar]. destruct (skip3 _ _ _ W3) as (-> & -> & ->). reflexivity.
Qed.

Lemma hasChar_isBlank_le : ∀ n s, (String.length s <= n)%nat ->
  isBlank s = true -> hasChar c s = false.
Proof.
  induction n as [|n IH]; intros s Hn.
  - destruct s; [reflexivity|simpl in Hn; lia].
  - destruct s as [|a r]; [reflexivity|]. simpl in Hn.
    cbn [isBlank]. intros H. apply orb_true_iff in H as [H|H].
    { apply andb_true_iff in H as [W1 B]. cbn [hasChar].
      rewrite (skip1 _ W1), (IH r) by (lia || exact B). reflexivity. }
    destruct r as [|b r2]; [discriminate|]. simpl in Hn.
    apply orb_true_iff in H as [H|H].
    { apply andb_true_iff in H as [W2 B]. cbn [hasChar].
      destruct (skip2 _ _ W2) as [-> ->]. rewrite (IH r2) by (lia || exact B). reflexivity. }
    destruct r2 as [|d r3]; [discriminate|]. simpl in Hn.
    apply andb_true_iff in H as [W3 B]. cbn [hasChar].
    destruct (skip3 _ _ _ W3) as (-> & -> & ->). rewrite (IH r3) by (lia || exact B).
    reflexivity.
Qed.

Lemma hasChar_trimEnd s : hasChar c (trimEnd s) = hasChar c s.
Proof.
  induction s as [|a r IH]; [reflexivity|]. cbn [trimEnd].
  destruct (isBlank (String a r)) eqn:B.
  - symmetry. apply (hasChar_isBlank_le (String.length (String a r))); [lia|exact B].
  - cbn [hasChar]. rewrite IH. reflexivity.
Qed.

(** [trim] neither removes nor adds such a character. *)
Lemma hasChar_trim s : hasChar c (trim s) = hasChar c s.
Proof.
  unfold trim. rewrite hasChar_trimEnd.
  apply (hasChar_trimStart_le (String.length s)). lia.
Qed.

End Trim.

Lemma includes_semicolon_trim (q : string) : includes (trim q) ";" = includes q ";".
Proof.
  rewrite !includes_char. apply hasChar_trim; [reflexivity|vm_compute; lia].
Qed.

(** The semicolon test on the trimmed, upper-cased query is the test on
    the query as it was given. *)
Lemma includes_semicolon_normalized {U : CaseMapping} (K : keepsSemicolons U) (q : string) :
  includes (toUpperCase (trim q)) ";" = includes q ";".
Proof. rewrite K. apply includes_semicolon_trim. Qed.

Lemma upperChar_semicolon a : Ascii.eqb ";" (upperChar a) = Ascii.eqb ";" a.
Proof. destruct a as [[] [] [] [] [] [] [] []]; reflexivity. Qed.

Lemma hasChar_upperCase_le : ∀ n s, (String.length s <= n)%nat ->
  hasChar ";" (Fixture.upperCase s) = hasChar ";" s.
Proof.
  induction n as [|n IH]; intros s Hn.
  - destruct s; [reflexivity|simpl in Hn; lia].
  - destruct s as [|a r]; [reflexivity|]. simpl in Hn.
    cbn [Fixture.upperCase]. destruct r as [|b r2].
    { cbn [hasChar]. rewrite upperChar_semicolon. reflexivity. }
    simpl in Hn.
    destruct ((code a =? 197)%nat && (code b =? 191)%nat) eqn:E.
    + apply andb_true_iff in E as [Ea Eb]. apply Nat.eqb_eq in Ea, Eb.
      cbn [hasChar]. rewrite (IH r2) by lia.
      rewrite (eqb_code ";" a), (eqb_code ";" b) by (rewrite ?Ea, ?Eb; vm_compute; lia).
      reflexivity.
    + change (hasChar ";" (String (upperChar a) (Fixture.upperCase (String b r2)))
              = hasChar ";" (String a (String b r2))).
      cbn [hasChar]. rewrite upperChar_semicolon.
      assert (R := IH (String b r2)). cbn [hasChar] in R. rewrite R by (simpl; lia).
      reflexivity.
Qed.

Lemma fixture_keepsSemicolons : keepsSemicolons Fixture.caseMapping.
Proof.
  intros s. rewrite !includes_char.
  apply (hasChar_upperCase_le (String.length s)). lia.
Qed.

End StringFacts.

(** ** Submission *)

Section Submission.

Context {U : CaseMapping}.
Variables (this : Sentinel) (env : Env) (uuid : string).

(** When validation throws, the call throws the same error or, on a full
    queue, the error of the admission check; the world is as before. *)
Lemma createQueryJob_invalid (q : string) (ps : list Any) (w : World) (e : JsError) :
  validateSelectQuery q = Throws e ->
  createQueryJob this env uuid q ps w =
    (Throws (if queueFull this w then QueueFullError this else e), w).
Proof.
  intros Hv. unfold createQueryJob, queueFull. rewrite Hv.
  destruct (maxQueueSize this <=? getWaitingCount w)%Z; reflexivity.
Qed.

End Submission.

(** C3. When the number of entries not yet picked up is at or above
    [maxQueueSize], [createQueryJob] throws the queue-full error and leaves
    the world, hence the queue and its depth, as it was, whatever the query
    is: the admission check comes before validation. *)
Theorem createQueryJob_queue_full {U : CaseMapping}
    (this : Sentinel) (env : Env) (uuid q : string) (ps : list Any) (w : World) :
  (maxQueueSize this <= getWaitingCount w)%Z ->
  createQueryJob this env uuid q ps w = (Throws (QueueFullError this), w)
  ∧ waiting (snd (createQueryJob this env uuid q ps w)) = waiting w.
Proof.
  intros H. apply Z.leb_le in H.
  unfold createQueryJob. rewrite H. split; reflexivity.
Qed.

Lemma createQueryJob_queue_full_witness :
  (maxQueueSize Fixture.smallSentinel <= getWaitingCount Fixture.fullWorld)%Z
  ∧ validateSelectQuery (U := Fixture.caseMapping) "DROP TABLE users" = Throws NotASelectError
  ∧ createQueryJob (U := Fixture.caseMapping) Fixture.smallSentinel Fixture.env0 Fixture.uuidB
      "DROP TABLE users" [] Fixture.fullWorld
    = (Throws (Error "Maximum queue size of 1 reached."), Fixture.fullWorld).
Proof.
  split; [vm_compute; discriminate|]. split; [reflexivity|].
  apply (createQueryJob_queue_full (U := Fixture.caseMapping) Fixture.smallSentinel Fixture.env0 Fixture.uuidB
           "DROP TABLE users" [] Fixture.fullWorld).
  vm_compute; discriminate.
Defined.

(** C1, as the code has it. A query that contains a semicolon is never
    enqueued: [createQueryJob] throws and leaves the world as it was. The
    error is the multi-statement one when the queue has room and the
    trimmed, upper-cased query begins with [SELECT ]; it is the
    not-a-SELECT one when the queue has room and the query does not begin
    so; it is the queue-full one when the queue is full. This holds for
    every case mapping that maps no character to or from a semicolon, as
    that of Unicode does. *)
Theorem createQueryJob_semicolon {U : CaseMapping}
    (this : Sentinel) (env : Env) (uuid q : string) (ps : list Any) (w : World) :
  keepsSemicolons U ->
  includes q ";" = true ->
  createQueryJob this env uuid q ps w =
    (Throws (if queueFull this w then QueueFullError this
             else if startsWith (toUpperCase (trim q)) "SELECT " then MultiStatementError
             else NotASelectError), w).
Proof.
  intros K H. rewrite <- (includes_semicolon_normalized K) in H.
  assert (Hv : validateSelectQuery q =
               Throws (if startsWith (toUpperCase (trim q)) "SELECT "
                       then MultiStatementError else NotASelectError)).
  { unfold validateSelectQuery.
    destruct (startsWith (toUpperCase (trim q)) "SELECT "); simpl; [|reflexivity].
    rewrite H. reflexivity. }
  rewrite (createQueryJob_invalid this env uuid q ps w _ Hv).
  destruct (queueFull this w); reflexivity.
Qed.

Lemma createQueryJob_semicolon_witness :
  keepsSemicolons Fixture.caseMapping
  ∧ includes "select 1; drop table users" ";" = true
  ∧ createQueryJob (U := Fixture.caseMapping) newSentinel Fixture.env0 Fixture.uuidA
      "select 1; drop table users" [] Fixture.w0
    = (Throws MultiStatementError, Fixture.w0).
Proof.
  split; [exact fixture_keepsSemicolons|]. split; [reflexivity|].
  apply (createQueryJob_semicolon (U := Fixture.caseMapping) newSentinel Fixture.env0
           Fixture.uuidA "select 1; drop table users" [] Fixture.w0).
  - exact fixture_keepsSemicolons.
  - reflexivity.
Defined.

(** C1 as stated fails: with room in the queue, a query with a semicolon
    that does not begin with [SELECT ] is refused with the not-a-SELECT
    error, not the multi-statement one. *)
Lemma createQueryJob_semicolon_not_select :
  includes "DROP TABLE users; --" ";" = true
  ∧ fst (createQueryJob (U := Fixture.caseMapping) newSentinel Fixture.env0 Fixture.uuidA
           "DROP TABLE users; --" [] Fixture.w0) = Throws NotASelectError
  ∧ fst (createQueryJob (U := Fixture.caseMapping) newSentinel Fixture.env0 Fixture.uuidA
           "DROP TABLE users; --" [] Fixture.w0) ≠ Throws MultiStatementError.
Proof. split; [reflexivity|]. split; [reflexivity|]. vm_compute. discriminate. Qed.

(** C4, as the code has it. A query that, trimmed and upper-cased, does
    not begin with [SELECT ] is never enqueued: [createQueryJob] throws and
    leaves the world as it was. The error is the not-a-SELECT one when the
    queue has room, and the queue-full one when the queue is full. This
    holds whatever the case mapping is. *)
Theorem createQueryJob_not_select {U : CaseMapping}
    (this : Sentinel) (env : Env) (uuid q : string) (ps : list Any) (w : World) :
  startsWith (toUpperCase (trim q)) "SELECT " = false ->
  validateSelectQuery q = Throws NotASelectError
  ∧ createQueryJob this env uuid q ps w =
      (Throws (if queueFull this w then QueueFullError this else NotASelectError), w).
Proof.
  intros H.
  assert (Hv : validateSelectQuery q = Throws NotASelectError).
  { unfold validateSelectQuery. rewrite H. reflexivity. }
  split; [exact Hv|]. apply createQueryJob_invalid. exact Hv.
Qed.

Lemma createQueryJob_not_select_witness :
  startsWith (toUpperCase (CaseMapping := Fixture.caseMapping) (trim "  selectx 1 "))
    "SELECT " = false
  ∧ validateSelectQuery (U := Fixture.caseMapping) "  selectx 1 " = Throws NotASelectError
  ∧ createQueryJob (U := Fixture.caseMapping) newSentinel Fixture.env0 Fixture.uuidA
      "  selectx 1 " [] Fixture.w0
    = (Throws NotASelectError, Fixture.w0).
Proof.
  split; [reflexivity|].
  apply (createQueryJob_not_select (U := Fixture.caseMapping) newSentinel Fixture.env0
           Fixture.uuidA "  selectx 1 " [] Fixture.w0).
  reflexivity.
Defined.

(** C4 as stated fails on a full queue: the admission check runs first and
    its error is the one thrown. *)
Lemma createQueryJob_not_select_full_queue :
  startsWith (toUpperCase (CaseMapping := Fixture.caseMapping) (trim "DELETE FROM users"))
    "SELECT " = false
  ∧ fst (createQueryJob (U := Fixture.caseMapping) Fixture.smallSentinel Fixture.env0
           Fixture.uuidB "DELETE FROM users" [] Fixture.fullWorld)
    = Throws (Error "Maximum queue size of 1 reached.")
  ∧ fst (createQueryJob (U := Fixture.caseMapping) Fixture.smallSentinel Fixture.env0
           Fixture.uuidB "DELETE FROM users" [] Fixture.fullWorld)
    ≠ Throws NotASelectError.
Proof. split; [reflexivity|]. split; [reflexivity|]. vm_compute. discriminate. Qed.

(** White space of more than one byte is trimmed, and the upper case of a
    character need not be an ASCII letter's: with the no-break space in
    front, or with the long s for its first letter, a query is a SELECT. *)
Example validateSelectQuery_beyond_ascii :
  trim (Fixture.nbsp +:+ "SELECT 1" +:+ Fixture.nbsp) = "SELECT 1"
  ∧ validateSelectQuery (U := Fixture.caseMapping) (Fixture.nbsp +:+ "SELECT 1") = Ok tt
  ∧ validateSelectQuery (U := Fixture.caseMapping) (Fixture.nbsp +:+ "SELECT 1; SELECT 2")
    = Throws MultiStatementError
  ∧ validateSelectQuery (U := Fixture.caseMapping) (Fixture.longS +:+ "elect 1") = Ok tt.
Proof. repeat split; reflexivity. Qed.


(** ** Type mapper *)

Lemma mapPostgresType_fallback (id : Z) :
  id ∉ recognizedTypeIds -> mapPostgresType id = "TEXT".
Proof.
  intros H.
  assert (H' : (id ≠ 20 ∧ id ≠ 21 ∧ id ≠ 23 ∧ id ≠ 700 ∧ id ≠ 701 ∧ id ≠ 1700 ∧ id ≠ 16
                ∧ id ≠ 1082 ∧ id ≠ 1114 ∧ id ≠ 1184 ∧ id ≠ 114 ∧ id ≠ 3802)%Z).
  { unfold recognizedTypeIds in H. repeat split; intros ->; apply H; set_solver. }
  clear H. destruct H' as (?&?&?&?&?&?&?&?&?&?&?&?).
  destruct id as [|p|p]; [reflexivity| |reflexivity].
  unfold mapPostgresType.
  repeat match goal with
         | |- context [match ?q with xI _ => _ | xO _ => _ | xH => _ end] =>
             is_var q; destruct q; try reflexivity; try (exfalso; lia)
         end.
Qed.

(** C6, as the code has it. [mapPostgresType] is a function on all
    type identifiers: 20, 21 and 23 give INTEGER; 700 and 701 give DOUBLE
    PRECISION; 1700 gives NUMERIC; 16 gives BOOLEAN; 1082 gives DATE; 1114
    and 1184 give TIMESTAMP; 114 and 3802 give JSONB; every other
    identifier, the string types 25 and 1043 among them, gives TEXT. *)
Theorem mapPostgresType_classes (id : Z) :
  (id ∈ [20; 21; 23]%Z -> mapPostgresType id = "INTEGER")
  ∧ (id ∈ [700; 701]%Z -> mapPostgresType id = "DOUBLE PRECISION")
  ∧ (id = 1700%Z -> mapPostgresType id = "NUMERIC")
  ∧ (id = 16%Z -> mapPostgresType id = "BOOLEAN")
  ∧ (id = 1082%Z -> mapPostgresType id = "DATE")
  ∧ (id ∈ [1114; 1184]%Z -> mapPostgresType id = "TIMESTAMP")
  ∧ (id ∈ [114; 3802]%Z -> mapPostgresType id = "JSONB")
  ∧ (id ∈ [25; 1043]%Z -> mapPostgresType id = "TEXT")
  ∧ (id ∉ recognizedTypeIds -> mapPostgresType id = "TEXT").
Proof.
  repeat split; try (intros ->; reflexivity);
    try (intros H; repeat (apply elem_of_cons in H as [->|H]; [reflexivity|]);
         apply elem_of_nil in H; contradiction).
  apply mapPostgresType_fallback.
Qed.

Lemma mapPostgresType_classes_witness :
  mapPostgresType 23 = "INTEGER" ∧ mapPostgresType 700 = "DOUBLE PRECISION"
  ∧ mapPostgresType 1043 = "TEXT" ∧ mapPostgresType 2950 = "TEXT".
Proof.
  split; [apply (mapPostgresType_classes 23); set_solver|].
  split; [apply (mapPostgresType_classes 700); set_solver|].
  split; [apply (mapPostgresType_classes 1043); set_solver|].
  apply (mapPostgresType_classes 2950). vm_compute. set_solver.
Defined.

(** C6 as stated fails: the floating-point identifiers give the type name
    DOUBLE PRECISION, not DOUBLE. *)
Lemma mapPostgresType_float_not_DOUBLE :
  mapPostgresType 700 = "DOUBLE PRECISION" ∧ mapPostgresType 701 = "DOUBLE PRECISION"
  ∧ mapPostgresType 700 ≠ "DOUBLE" ∧ mapPostgresType 701 ≠ "DOUBLE".
Proof. repeat split; discriminate. Qed.

(** ** Table names *)

Section TableNames.

Lemma uuidFrom_chars (s : string) : forall i,
  uuidFrom i s = true -> allChars uuidChar s = true ∧ String.length s + i = 36.
Proof.
  induction s as [|c r IH]; simpl; intros i H.
  - split; [reflexivity|]. apply Nat.eqb_eq in H. lia.
  - apply andb_true_iff in H as [Hc Hr]. apply IH in Hr as [Hr Hl].
    split; [|lia]. rewrite Hr, andb_true_r. unfold uuidChar.
    destruct ((i =? 8)%nat || (i =? 13)%nat || (i =? 18)%nat || (i =? 23)%nat);
      rewrite Hc; [apply orb_true_r|reflexivity].
Qed.

Ltac by_cases_on c :=
  destruct c as [[] [] [] [] [] [] [] []]; vm_compute; try reflexivity; try discriminate.

Lemma uuidChar_not_underscore c : uuidChar c = true -> Ascii.eqb c "_" = false.
Proof. by_cases_on c. Qed.

Lemma uuidChar_word c :
  uuidChar c = true -> isWordChar c = negb (Ascii.eqb c "-").
Proof. by_cases_on c. Qed.

Lemma replaced_word c :
  uuidChar c = true -> isWordChar (if Ascii.eqb c "-" then "_"%char else c) = true.
Proof. by_cases_on c. Qed.

Lemma replaceAll_length c d s : String.length (replaceAll c d s) = String.length s.
Proof. induction s; simpl; congruence. Qed.

Lemma append_length (a b : string) :
  String.length (a +:+ b) = String.length a + String.length b.
Proof. induction a; [reflexivity|simpl; congruence]. Qed.

Lemma allChars_append p (a b : string) :
  allChars p (a +:+ b) = allChars p a && allChars p b.
Proof.
  induction a as [|c a IH]; [reflexivity|].
  simpl. rewrite IH, andb_assoc. reflexivity.
Qed.

Lemma append_cancel (a x y : string) : a +:+ x = a +:+ y -> x = y.
Proof.
  induction a as [|c a IH]; [intros H; exact H|].
  simpl. intros H. injection H as H. auto.
Qed.

Lemma replaceAll_word s :
  allChars uuidChar s = true -> allChars isWordChar (replaceAll "-" "_" s) = true.
Proof.
  induction s as [|c r IH]; simpl; [reflexivity|].
  intros H. apply andb_true_iff in H as [Hc Hr].
  rewrite (replaced_word c Hc), IH; auto.
Qed.

(** On the characters of a UUID, replacing the hyphens is replacing the
    characters that no identifier may hold. *)
Lemma replaceAll_replaceNonIdentifier s :
  allChars uuidChar s = true -> replaceAll "-" "_" s = replaceNonIdentifier s.
Proof.
  induction s as [|c r IH]; simpl; [reflexivity|].
  intros H. apply andb_true_iff in H as [Hc Hr].
  rewrite IH by exact Hr. rewrite (uuidChar_word c Hc).
  destruct (Ascii.eqb c "-"); reflexivity.
Qed.

Lemma replaceAll_injective s1 : forall s2,
  allChars uuidChar s1 = true -> allChars uuidChar s2 = true ->
  replaceAll "-" "_" s1 = replaceAll "-" "_" s2 -> s1 = s2.
Proof.
  induction s1 as [|c1 r1 IH]; intros [|c2 r2]; simpl; try discriminate; [reflexivity|].
  intros H1 H2 E. apply andb_true_iff in H1 as [Hc1 Hr1].
  apply andb_true_iff in H2 as [Hc2 Hr2].
  injection E as Ec Er. f_equal; [|apply IH; assumption].
  pose proof (uuidChar_not_underscore c1 Hc1) as N1.
  pose proof (uuidChar_not_underscore c2 Hc2) as N2.
  destruct (Ascii.eqb c1 "-") eqn:E1, (Ascii.eqb c2 "-") eqn:E2.
  - apply Ascii.eqb_eq in E1, E2. congruence.
  - subst c2. discriminate N2.
  - subst c1. discriminate N1.
  - exact Ec.
Qed.

End TableNames.

(** C5. The table name of a job is a function of its identifier: the token
    [query_results_], then the identifier with its hyphens replaced by
    underscores. On the identifiers [createQueryJob] makes, the UUIDs, this
    is the identifier with every non-identifier character replaced by an
    underscore; the name is a valid identifier; and distinct identifiers
    give distinct names. *)
Theorem tableNameOf_injective_valid (j1 j2 : string) :
  isUUID j1 = true -> isUUID j2 = true -> j1 ≠ j2 ->
  tableNameOf j1 = specTableName j1
  ∧ validIdentifier (tableNameOf j1) = true
  ∧ validIdentifier (tableNameOf j2) = true
  ∧ tableNameOf j1 ≠ tableNameOf j2.
Proof.
  intros U1 U2 Hne.
  apply uuidFrom_chars in U1 as [C1 L1]. apply uuidFrom_chars in U2 as [C2 L2].
  assert (V : forall j, allChars uuidChar j = true -> String.length j + 0 = 36 ->
                        validIdentifier (tableNameOf j) = true).
  { intros j C L.
    change (tableNameOf j) with (String "q" ("uery_results_" +:+ replaceAll "-" "_" j)).
    unfold validIdentifier.
    rewrite allChars_append, (replaceAll_word j C).
    change (String.length (String "q" ("uery_results_" +:+ replaceAll "-" "_" j)))
      with (S (String.length ("uery_results_" +:+ replaceAll "-" "_" j))).
    rewrite append_length, replaceAll_length.
    replace (String.length j) with 36 by lia. reflexivity. }
  split; [|split; [|split]]; auto.
  - unfold tableNameOf, specTableName. f_equal. apply replaceAll_replaceNonIdentifier, C1.
  - unfold tableNameOf. intros E. apply Hne.
    apply append_cancel in E. apply replaceAll_injective; assumption.
Qed.

Lemma tableNameOf_injective_valid_witness :
  tableNameOf Fixture.uuidA = "query_results_1b4e28ba_2fa1_41d2_883f_0016d3cca427"
  ∧ validIdentifier (tableNameOf Fixture.uuidA) = true
  ∧ tableNameOf Fixture.uuidA ≠ tableNameOf Fixture.uuidB.
Proof.
  split; [reflexivity|].
  destruct (tableNameOf_injective_valid Fixture.uuidA Fixture.uuidB) as (_ & V & _ & N);
    [reflexivity|reflexivity|vm_compute; discriminate|].
  split; [exact V|exact N].
Defined.

(** The derivation is not injective on arbitrary strings, which is why the
    statement above is about the identifiers the program makes. *)
Example tableNameOf_collision_outside_uuids :
  tableNameOf "a-b" = tableNameOf "a_b" ∧ isUUID "a-b" = false.
Proof. split; reflexivity. Qed.

(** ** The driver *)

Section Driver.

Variable env : Env.

Lemma frame_refl w : frame w w.
Proof. repeat split. Qed.

Lemma frame_query d s w : frame w (setDb d (logStatement s w)).
Proof. repeat split. Qed.

Lemma frame_trans w1 w2 w3 : frame w1 w2 -> frame w2 w3 -> frame w1 w3.
Proof. unfold frame. intros (?&?&?&?) (?&?&?&?). repeat split; congruence. Qed.

Lemma dbExtends_refl d : dbExtends d d.
Proof. split; auto. Qed.

Lemma dbExtends_trans d1 d2 d3 : dbExtends d1 d2 -> dbExtends d2 d3 -> dbExtends d1 d3.
Proof.
  intros [T1 R1] [T2 R2]. split; [auto|].
  intros m H. destruct (R2 m H) as [H2|H2]; [|auto].
  destruct (R1 m H2) as [H1|H1]; auto.
Qed.

Lemma dbExtends_orphaned d d' m : dbExtends d d' -> orphaned d' m -> orphaned d m.
Proof.
  intros [T R] [Hm Ht]. destruct (R m Hm) as [H|H].
  - split; [exact H|]. destruct (tables d !! table_name m) eqn:E; [|reflexivity].
    destruct (T (table_name m)) as [x Hx]; [eauto|]. congruence.
  - rewrite Ht in H. destruct H; discriminate.
Qed.

(** [client.query]: the statement joins the log; the database changes as
    [execute] says when the statement succeeds, and not at all otherwise. *)
Lemma clientQuery_spec s w r w' :
  clientQuery env s w = (r, w') ->
  ∃ d, w' = setDb d (logStatement s w)
       ∧ match r with
         | Ok q => fault env (length (sent w)) = None ∧ execute env s (db w) = Ok (q, d)
         | Throws _ => d = db w
         end.
Proof.
  unfold clientQuery. intros H.
  destruct (fault env (length (sent w))) as [e|] eqn:F.
  - inversion H; subst. exists (db w). destruct w; auto.
  - destruct (execute env s (db w)) as [[q d]|e] eqn:X; inversion H; subst.
    + exists d. auto.
    + exists (db w). destruct w; auto.
Qed.

Lemma clientQuery_no_fault s w :
  fault env (length (sent w)) = None ->
  clientQuery env s w =
    match execute env s (db w) with
    | Ok (r, d) => (Ok r, setDb d (logStatement s w))
    | Throws e => (Throws e, logStatement s w)
    end.
Proof. unfold clientQuery. intros ->. reflexivity. Qed.

End Driver.

(** Solves the goal that a log is the old one, then the probe, then more. *)
Ltac log_shape :=
  eexists; split; [rewrite <- ?app_assoc; simpl; reflexivity|].

(** Solves the goal that the statements listed are of the job, from the
    facts [FJ] about its query and [NQ] about the other statements. *)
Ltac log_ok FJ NQ :=
  repeat (apply Forall_cons_2; [first [exact FJ | apply NQ; discriminate]|]);
  try apply Forall_nil_2.

(** Destructs the next [client.query] of the computation in hypothesis [H]. *)
Ltac next_query H r d Hd :=
  match type of H with
  | context [clientQuery ?env ?s ?w] =>
      let E := fresh "E" in
      let w1 := fresh "w" in
      destruct (clientQuery env s w) as [r w1] eqn:E;
      apply clientQuery_spec in E as (d & -> & Hd);
      destruct r as [r|r]; simpl in H
  end.

(** ** The job executor *)

Section Executor.

Variable env : Env.

Lemma execute_InsertRow t cs vs d q d' :
  execute env (InsertRow t cs vs) d = Ok (q, d') ->
  dbExtends d d' ∧ job_metadata d' = job_metadata d.
Proof.
  simpl. destruct (tables d !! t) as [tb|] eqn:T; [|discriminate].
  destruct (forallb (hasColumn tb) cs && (length cs =? length vs)%nat); [|discriminate].
  intros H; inversion H; subst; clear H. split; [|reflexivity].
  split; simpl.
  - intros t' Ht'. destruct (decide (t = t')) as [->|N].
    + rewrite lookup_insert_eq. eauto.
    + rewrite lookup_insert_ne by exact N. exact Ht'.
  - intros m Hm. left. exact Hm.
Qed.

Lemma insertRows_spec t (rs : list Row) : ∀ w r w',
  forEach rs (insertRowOf env t) w = (r, w') ->
  frame w w' ∧ dbExtends (db w) (db w') ∧ job_metadata (db w') = job_metadata (db w)
  ∧ ∃ l, sent w' = sent w ++ l ∧ Forall (fun s => ∀ x v, s ≠ UserQuery x v) l.
Proof.
  induction rs as [|row rs IH]; intros w r w' H; simpl in H.
  - inversion H; subst. split; [apply frame_refl|]. split; [apply dbExtends_refl|].
    split; [reflexivity|]. exists []. rewrite app_nil_r. auto.
  - unfold bind at 1, insertRowOf at 1, bind at 1 in H.
    next_query H q d Hd.
    + destruct Hd as [_ Hd]. apply execute_InsertRow in Hd as [X Mt].
      apply IH in H as (F & X' & Mt' & l & Hl & Al). simpl in *.
      split; [eapply frame_trans; [apply frame_query|exact F]|].
      split; [eapply dbExtends_trans; eauto|].
      split; [congruence|].
      eexists (_ :: l). rewrite Hl, <- app_assoc. split; [reflexivity|].
      constructor; [discriminate|exact Al].
    + inversion H; subst; clear H. simpl.
      split; [apply frame_query|]. split; [apply dbExtends_refl|].
      split; [reflexivity|]. eexists [_]. split; [reflexivity|].
      constructor; [discriminate|constructor].
Qed.

Lemma execute_UserQuery x v d q d' :
  execute env (UserQuery x v) d = Ok (q, d') -> d' = d.
Proof. simpl. destruct (run_query env x v d); intros H; inversion H; reflexivity. Qed.

Lemma execute_CreateMetadataTable d q d' :
  execute env CreateMetadataTable d = Ok (q, d') -> dbExtends d d'.
Proof.
  simpl. destruct (job_metadata d) eqn:E; intros H; inversion H; subst.
  - apply dbExtends_refl.
  - split; simpl; [auto|]. unfold metadataRows. simpl. intros m Hm.
    apply elem_of_nil in Hm. contradiction.
Qed.

Lemma execute_CreateTable t cols d q d' :
  execute env (CreateTable t cols) d = Ok (q, d') ->
  dbExtends d d' ∧ is_Some (tables d' !! t).
Proof.
  simpl. destruct (tables d !! t) eqn:T; [discriminate|].
  destruct (bool_decide (NoDup (map fst cols))); [|discriminate].
  intros H; inversion H; subst; clear H. simpl.
  split; [|rewrite lookup_insert_eq; eauto].
  split; simpl.
  - intros t' Ht'. destruct (decide (t = t')) as [->|N].
    + rewrite lookup_insert_eq. eauto.
    + rewrite lookup_insert_ne by exact N. exact Ht'.
  - intros m Hm. left. exact Hm.
Qed.

Lemma execute_InsertMetadata j t d q d' :
  execute env (InsertMetadata j t) d = Ok (q, d') ->
  tables d' = tables d
  ∧ ∃ ms, job_metadata d = Some ms
          ∧ Forall (fun m => job_id m ≠ j) ms
          ∧ job_metadata d' = Some (ms ++ [{| job_id := j; table_name := t; created_at := now d |}]).
Proof.
  simpl. destruct (job_metadata d) as [ms|] eqn:E; [|discriminate].
  destruct (existsb (fun m => String.eqb (job_id m) j) ms) eqn:X; [discriminate|].
  intros H; inversion H; subst; clear H. simpl. split; [reflexivity|].
  exists ms. split; [reflexivity|]. split; [|reflexivity].
  apply Forall_forall. intros m Hm Hj.
  assert (existsb (fun m => String.eqb (job_id m) j) ms = true); [|congruence].
  apply existsb_exists. exists m. split; [apply list_elem_of_In; exact Hm|].
  apply String.eqb_eq. exact Hj.
Qed.

Lemma InsertMetadata_extends j t d q d' :
  is_Some (tables d !! t) ->
  execute env (InsertMetadata j t) d = Ok (q, d') -> dbExtends d d'.
Proof.
  intros Ht H. apply execute_InsertMetadata in H as (T & ms & M1 & _ & M2).
  split.
  - rewrite T. auto.
  - unfold metadataRows. rewrite M1, M2, T. intros m Hm.
    apply elem_of_app in Hm as [Hm|Hm]; [left; exact Hm|right].
    apply list_elem_of_singleton in Hm. subst m. exact Ht.
Qed.

(** Steps 1 to 5. Whatever their outcome, they raise no event, they send
    the probe first and then only statements that carry the query of the
    job where they carry a client's text, they keep the tables of the
    catalog and add no metadata row without its table. When they succeed,
    the name is [tableNameOf] of the identifier and the row of the job is
    the last of [job_metadata], the only one with its identifier. *)
Lemma runSteps_spec job w r w' :
  runSteps env job w = (r, w') ->
  frame w w' ∧ dbExtends (db w) (db w')
  ∧ (∃ rest, sent w' = sent w ++ UserQuery (query job +:+ " LIMIT 0") (params job) :: rest
             ∧ Forall (fromJob job) rest)
  ∧ (∀ tn, r = Ok tn ->
       tn = tableNameOf (jobId job)
       ∧ ∃ ms c, job_metadata (db w') =
                   Some (ms ++ [{| job_id := jobId job; table_name := tn; created_at := c |}])
                 ∧ Forall (fun m => job_id m ≠ jobId job) ms).
Proof.
  intros H. unfold runSteps, bind in H.
  next_query H q1 d1 H1;
    [|inversion H; subst; clear H; simpl;
      split; [apply frame_query|]; split; [apply dbExtends_refl|];
      split; [exists []; split; [reflexivity|constructor]|discriminate]].
  destruct H1 as [_ H1]. apply execute_UserQuery in H1. subst d1.
  assert (FJ : fromJob job (UserQuery (query job) (params job))).
  { intros x v E. inversion E. auto. }
  assert (NQ : ∀ s, (∀ x v, s ≠ UserQuery x v) -> fromJob job s).
  { intros s N x v E. destruct (N x v E). }
  next_query H q2 d2 H2;
    [|inversion H; subst; clear H; simpl;
      split; [repeat split|]; split; [apply dbExtends_refl|];
      split; [log_shape; log_ok FJ NQ
             |discriminate]].
  destruct H2 as [_ H2]. apply execute_CreateMetadataTable in H2. simpl in H2.
  next_query H q3 d3 H3;
    [|inversion H; subst; clear H; simpl;
      split; [repeat split|]; split; [exact H2|];
      split; [log_shape; log_ok FJ NQ
             |discriminate]].
  destruct H3 as [_ H3]. apply execute_CreateTable in H3 as [H3 T3]. simpl in H3.
  next_query H q4 d4 H4;
    [|inversion H; subst; clear H; simpl;
      split; [repeat split|]; split; [eapply dbExtends_trans; eauto|];
      split; [log_shape; log_ok FJ NQ
             |discriminate]].
  destruct H4 as [_ H4]. simpl in H4.
  pose proof (InsertMetadata_extends _ _ _ _ _ T3 H4) as X4.
  apply execute_InsertMetadata in H4 as (_ & ms & _ & Fr & M4).
  assert (X : dbExtends (db w) d4) by (eapply dbExtends_trans; [eapply dbExtends_trans|]; eauto).
  next_query H q5 d5 H5;
    [|inversion H; subst; clear H; simpl;
      split; [repeat split|]; split; [exact X|];
      split; [log_shape; log_ok FJ NQ|discriminate]].
  destruct H5 as [_ H5]. apply execute_UserQuery in H5. subst d5.
  destruct (forEach (rows q5) _ _) as [r6 w6] eqn:E6.
  apply insertRows_spec in E6 as (F6 & X6 & M6 & l & Hl & Al). simpl in *.
  assert (R : frame w w6 ∧ dbExtends (db w) (db w6)
              ∧ ∃ rest, sent w6 = sent w ++ UserQuery (query job +:+ " LIMIT 0") (params job) :: rest
                        ∧ Forall (fromJob job) rest).
  { split; [unfold frame in *; simpl in F6; exact F6|].
    split; [eapply dbExtends_trans; eauto|].
    rewrite Hl. log_shape. log_ok FJ NQ.
    eapply Forall_impl; [exact Al|]. intros s N. apply NQ. exact N. }
  destruct R as (R1 & R2 & R3).
  destruct r6; inversion H; subst; clear H.
  - repeat (split; [assumption|]). intros tn E. inversion E; subst; clear E.
    split; [reflexivity|]. exists ms, (now d3). rewrite M6, M4. auto.
  - repeat (split; [assumption|]). discriminate.
Qed.

(** [handleJob] when the pool has no connection to give: the rejection of
    [connect] leaves the method before its [try]. *)
Lemma handleJob_not_connected job w e :
  connect_error env = Some e -> handleJob env job w = (Throws e, w).
Proof. intros H. unfold handleJob, bind, connect. rewrite H. reflexivity. Qed.

(** [handleJob] once connected, by the outcome of steps 1 to 5 and of the
    listeners. *)
Lemma handleJob_connected job w :
  connect_error env = None ->
  handleJob env job w =
    let '(r1, w1) := runSteps env job (lease w) in
    match r1 with
    | Ok tn =>
        let done := (SENTINEL_JOB_COMPLETED (jobId job), PCompleted (jobId job) tn) in
        match callListeners (listeners env (fst done)) (snd done) with
        | None => (Ok tn, release (raise done w1))
        | Some e' =>
            let failed := (SENTINEL_JOB_FAILED (jobId job), PFailed e') in
            (Throws (default e' (callListeners (listeners env (fst failed)) (snd failed))),
             release (raise failed (raise done w1)))
        end
    | Throws e =>
        let failed := (SENTINEL_JOB_FAILED (jobId job), PFailed e) in
        (Throws (default e (callListeners (listeners env (fst failed)) (snd failed))),
         release (raise failed w1))
    end.
Proof.
  intros H. unfold handleJob, bind, connect, finally, tryCatch, emit, throw. rewrite H.
  destruct (runSteps env job (lease w)) as [[tn|e] w1]; simpl.
  - destruct (callListeners _ _); simpl; [|reflexivity].
    destruct (callListeners _ _); reflexivity.
  - destruct (callListeners _ _); reflexivity.
Qed.

End Executor.

(** C2. When one of steps 1 to 5 of a job fails, with error [e], then
    [handleJob] rejects, the one event it raises is the failure event of
    the job, named after its identifier and carrying [e] (so no completion
    event), the connection is given back, and every metadata row left
    without its table was already so before the job: the job leaves no
    metadata row that names a table which does not exist. *)
Theorem handleJob_step_failure (env : Env) (job : QueueEntry) (w w1 : World) (e : JsError) :
  connect_error env = None ->
  runSteps env job (lease w) = (Throws e, w1) ->
  ∃ e' w', handleJob env job w = (Throws e', w')
           ∧ emitted w' = emitted w ++ [(SENTINEL_JOB_FAILED (jobId job), PFailed e)]
           ∧ (∀ m, orphaned (db w') m -> orphaned (db w) m)
           ∧ leased w' = leased w.
Proof.
  intros C R. rewrite (handleJob_connected env job w C), R.
  apply runSteps_spec in R as ((Fe & _ & _ & Fl) & X & _).
  eexists _, _. split; [reflexivity|]. simpl in *.
  split; [rewrite Fe; reflexivity|]. split; [|rewrite Fl; reflexivity].
  intros m. apply dbExtends_orphaned. exact X.
Qed.

Lemma handleJob_step_failure_witness :
  ∃ e' w', handleJob (Fixture.envFaultAt 4) Fixture.jobA Fixture.w0 = (Throws e', w')
           ∧ emitted w' = [("job-failed:1b4e28ba-2fa1-41d2-883f-0016d3cca427",
                            PFailed (Error "connection terminated"))]
           ∧ (∀ m, orphaned (db w') m -> orphaned (db Fixture.w0) m)
           ∧ leased w' = 0.
Proof.
  eapply (handleJob_step_failure (Fixture.envFaultAt 4) Fixture.jobA Fixture.w0);
    [reflexivity|vm_compute; reflexivity].
Defined.

(** C10. Once connected, the first statement [handleJob] sends is the probe:
    its text is the query of the job followed by [ LIMIT 0], nothing else
    changed, and its bind values are the parameters of the job. Every later
    statement that carries a client's text carries the query of the job
    itself with the same parameters. *)
Theorem handleJob_probe (env : Env) (job : QueueEntry) (w : World) :
  connect_error env = None ->
  ∃ probe rest,
    sent (snd (handleJob env job w)) = sent w ++ probe :: rest
    ∧ sqlText probe = query job +:+ " LIMIT 0"
    ∧ sqlValues probe = params job
    ∧ Forall (fromJob job) rest.
Proof.
  intros C. rewrite (handleJob_connected env job w C).
  destruct (runSteps env job (lease w)) as [r1 w1] eqn:R.
  apply runSteps_spec in R as (_ & _ & (rest & S & A) & _). simpl in S.
  exists (UserQuery (query job +:+ " LIMIT 0") (params job)), rest.
  split; [|auto].
  destruct r1 as [tn|e]; simpl; [destruct (callListeners _ _)|]; simpl; exact S.
Qed.

Lemma handleJob_probe_witness :
  ∃ probe rest,
    sent (snd (handleJob Fixture.env0 Fixture.jobA Fixture.w0)) = probe :: rest
    ∧ sqlText probe = "SELECT 1 AS x LIMIT 0"
    ∧ sqlValues probe = [ANumber 5]
    ∧ Forall (fromJob Fixture.jobA) rest.
Proof.
  apply (handleJob_probe Fixture.env0 Fixture.jobA Fixture.w0). reflexivity.
Defined.

(** ** The lookup *)

Section Lookup.

Variable env : Env.

Lemma getTableNameForJob_eval j w :
  fst (getTableNameForJob env j w) =
    match lookupFailure env w with
    | Some err => Throws (RetrievalError err)
    | None =>
        match filter (fun m => String.eqb (job_id m) j = true) (metadataRows (db w)) with
        | m :: _ => Ok (AString (table_name m))
        | [] => Ok ANull
        end
    end.
Proof.
  unfold getTableNameForJob, tryCatch, bind, poolQuery, bind, connect, finally, clientQuery,
    lookupFailure, metadataRows, throw.
  destruct (connect_error env); [reflexivity|]. simpl.
  destruct (fault env (length (sent w))); [reflexivity|].
  destruct (job_metadata (db w)) as [ms|]; [|reflexivity]. simpl.
  destruct (filter _ ms); reflexivity.
Qed.

Lemma filter_job_id_none j (ms : list MetaRow) :
  Forall (fun m => job_id m ≠ j) ms ->
  filter (fun m => String.eqb (job_id m) j = true) ms = [].
Proof.
  induction 1 as [|m ms Hm _ IH]; [reflexivity|].
  rewrite filter_cons, IH. destruct (decide _) as [E|_]; [|reflexivity].
  apply String.eqb_eq in E. contradiction.
Qed.

End Lookup.

(** C8, as the code has it. (1) When [handleJob] resolves, it has raised
    the completion event of the job, carrying the identifier and the table
    name, and a lookup of the identifier made then, on a pool that gives a
    connection and a server that answers, returns that table name. (2) For
    an identifier with no metadata row the lookup returns [null] when the
    statement it sends succeeds, and throws the error of the statement,
    wrapped, when it does not: no connection, a failure of the server, or
    no table [job_metadata] yet. *)
Theorem getTableNameForJob_spec :
  (∀ (env env' : Env) (job : QueueEntry) (w w' : World) (tn : string),
     handleJob env job w = (Ok tn, w') ->
     connect_error env' = None -> fault env' (length (sent w')) = None ->
     emitted w' = emitted w ++ [(SENTINEL_JOB_COMPLETED (jobId job), PCompleted (jobId job) tn)]
     ∧ fst (getTableNameForJob env' (jobId job) w') = Ok (AString tn))
  ∧ (∀ (env : Env) (j : string) (w : World),
       Forall (fun m => job_id m ≠ j) (metadataRows (db w)) ->
       fst (getTableNameForJob env j w) =
         match lookupFailure env w with
         | Some err => Throws (RetrievalError err)
         | None => Ok ANull
         end).
Proof.
  split.
  - intros env env' job w w' tn H C' F'.
    destruct (connect_error env) as [e|] eqn:C.
    { rewrite (handleJob_not_connected env job w e C) in H. discriminate. }
    rewrite (handleJob_connected env job w C) in H.
    destruct (runSteps env job (lease w)) as [[tn1|e] w1] eqn:R; simpl in H; [|discriminate].
    destruct (callListeners _ _); [discriminate|].
    inversion H; subst; clear H.
    apply runSteps_spec in R as ((Fe & _) & _ & _ & S).
    destruct (S tn eq_refl) as (_ & ms & c & Hm & Hn).
    split; [simpl; rewrite Fe; reflexivity|].
    rewrite getTableNameForJob_eval. unfold lookupFailure, metadataRows.
    rewrite C', F'. simpl. rewrite Hm.
    rewrite filter_app, (filter_job_id_none _ _ Hn), filter_cons. simpl.
    destruct (decide _) as [_|N]; [reflexivity|].
    rewrite String.eqb_refl in N. contradiction.
  - intros env j w Hn. rewrite getTableNameForJob_eval.
    rewrite (filter_job_id_none _ _ Hn). reflexivity.
Qed.

Lemma getTableNameForJob_spec_witness :
  (let w' := snd (handleJob Fixture.env0 Fixture.jobA Fixture.w0) in
   emitted w' = [("job-completed:1b4e28ba-2fa1-41d2-883f-0016d3cca427",
                  PCompleted Fixture.uuidA "query_results_1b4e28ba_2fa1_41d2_883f_0016d3cca427")]
   ∧ fst (getTableNameForJob Fixture.env0 Fixture.uuidA w')
     = Ok (AString "query_results_1b4e28ba_2fa1_41d2_883f_0016d3cca427")
   ∧ fst (getTableNameForJob Fixture.env0 Fixture.uuidB w') = Ok ANull).
Proof.
  destruct getTableNameForJob_spec as [P1 P2]. simpl.
  destruct (P1 Fixture.env0 Fixture.env0 Fixture.jobA Fixture.w0
              (snd (handleJob Fixture.env0 Fixture.jobA Fixture.w0))
              "query_results_1b4e28ba_2fa1_41d2_883f_0016d3cca427")
    as [E L]; [vm_compute; reflexivity|reflexivity|reflexivity|].
  split; [exact E|]. split; [exact L|].
  rewrite P2; [reflexivity|].
  vm_compute. repeat constructor. discriminate.
Defined.

(** C8 as stated fails: on a database where no job has run yet the table
    [job_metadata] does not exist, and the lookup of an identifier that has
    no metadata row throws instead of returning [null]. *)
Lemma getTableNameForJob_unknown_throws :
  metadataRows (db Fixture.w0) = []
  ∧ fst (getTableNameForJob Fixture.env0 Fixture.uuidA Fixture.w0)
    = Throws (RetrievalError (missingRelation "job_metadata"))
  ∧ fst (getTableNameForJob Fixture.env0 Fixture.uuidA Fixture.w0) ≠ Ok ANull.
Proof. split; [reflexivity|]. split; [reflexivity|]. vm_compute. discriminate. Qed.

(** A run from submission to lookup: the job is admitted, its table gets
    the column and the row of the query, and the lookup finds the table. *)
Example submit_run_lookup :
  let (r, w1) := createQueryJob (U := Fixture.caseMapping) newSentinel Fixture.env0
                   Fixture.uuidA "SELECT 1 AS x" [ANumber 5] Fixture.w0 in
  let (r', w2) := handleJob Fixture.env0 Fixture.jobA w1 in
  r = Ok Fixture.uuidA
  ∧ waiting w1 = [Fixture.jobA]
  ∧ r' = Ok (tableNameOf Fixture.uuidA)
  ∧ tables (db w2) !! tableNameOf Fixture.uuidA
    = Some {| columns := [("x", "INTEGER")]; content := [[("x", Some "1")]] |}
  ∧ fst (getTableNameForJob Fixture.env0 Fixture.uuidA w2)
    = Ok (AString (tableNameOf Fixture.uuidA))
  ∧ leased w2 = 0.
Proof. vm_compute. repeat split. Qed.

(** When the pool gives a connection and no listener of the completion
    event throws, [handleJob] raises one event and no more. *)
Lemma handleJob_one_event (env : Env) (job : QueueEntry) (w : World) :
  connect_error env = None ->
  (∀ p, callListeners (listeners env (SENTINEL_JOB_COMPLETED (jobId job))) p = None) ->
  ∃ ev, emitted (snd (handleJob env job w)) = emitted w ++ [ev].
Proof.
  intros C L. rewrite (handleJob_connected env job w C).
  destruct (runSteps env job (lease w)) as [[tn|e] w1] eqn:R;
    apply runSteps_spec in R as ((Fe & _) & _); simpl in *.
  - rewrite L. simpl. rewrite Fe. eauto.
  - rewrite Fe. eauto.
Qed.

(** C7, where the code departs from it. A job picked up while the pool
    cannot give a connection is rejected before the [try] and raises no
    event at all; a job whose completion listener throws raises the
    completion event and then the failure event. *)
Theorem handleJob_events_not_exactly_one :
  handleJob Fixture.envPoolDown Fixture.jobA Fixture.w0
    = (Throws (Error "connect ECONNREFUSED 127.0.0.1:5432"), Fixture.w0)
  ∧ emitted (snd (handleJob Fixture.envPoolDown Fixture.jobA Fixture.w0)) = []
  ∧ emitted (snd (handleJob Fixture.envThrowingListener Fixture.jobA Fixture.w0))
    = [(SENTINEL_JOB_COMPLETED Fixture.uuidA,
        PCompleted Fixture.uuidA (tableNameOf Fixture.uuidA));
       (SENTINEL_JOB_FAILED Fixture.uuidA, PFailed (Error "listener failed"))].
Proof. split; [reflexivity|]. split; [reflexivity|]. vm_compute. reflexivity. Qed.

(** ** The cleanup sweeper *)

Section Sweeper.

Variable env : Env.

Lemma sweepRow_eval m w :
  sweepRow env (sweepRowOf m) w = (Ok tt, afterRow m (rowOutcome env w) w).
Proof.
  unfold sweepRow, tryCatch, bind, clientQuery, rowOutcome, afterRow. simpl.
  destruct (fault env (length (sent w))) as [e|] eqn:F1; simpl.
  { reflexivity. }
  rewrite length_app. simpl. rewrite Nat.add_1_r.
  destruct (fault env (S (length (sent w)))) as [e|] eqn:F2; simpl.
  { unfold consoleError. simpl. rewrite <- (List.app_assoc (sent w)). reflexivity. }
  destruct (job_metadata (db w)) as [ms|] eqn:M; simpl.
  - unfold deleteRowsOf, metadataRows, dropTable, setDb, logStatement. simpl. rewrite M.
    rewrite <- (List.app_assoc (sent w)), List.app_nil_r. reflexivity.
  - unfold consoleError. simpl. rewrite <- (List.app_assoc (sent w)). reflexivity.
Qed.

Lemma forEach_sweepRow ms : ∀ w,
  forEach (map sweepRowOf ms) (sweepRow env) w = (Ok tt, afterRows env ms w).
Proof.
  induction ms as [|m ms IH]; intros w; simpl; [reflexivity|].
  unfold bind. rewrite sweepRow_eval. apply IH.
Qed.

(** The statements sent and the lines logged, row by row; nothing else of
    the world moves but the database. *)
Lemma afterRows_log ms : ∀ w,
  let outs := sweepOutcomes env ms w in
  let w' := afterRows env ms w in
  length outs = length ms
  ∧ sent w' = sent w ++ concat (zip_with rowStatements ms outs)
  ∧ console w' = console w ++ concat (zip_with rowConsole ms outs)
  ∧ emitted w' = emitted w ∧ waiting w' = waiting w ∧ leased w' = leased w.
Proof.
  induction ms as [|m ms IH]; intros w; simpl.
  - rewrite !app_nil_r. repeat split.
  - destruct (IH (afterRow m (rowOutcome env w) w)) as (L & S & C & E & Q & P).
    simpl in *. rewrite L, S, C, E, Q, P, <- !(assoc_L (++)). repeat split.
Qed.

Lemma rowEffect_tables m o d t :
  t ≠ table_name m -> tables (rowEffect m o d) !! t = tables d !! t.
Proof.
  intros N. destruct o; simpl; [|reflexivity|];
    rewrite lookup_delete_ne by congruence; reflexivity.
Qed.

Lemma rowEffect_absent m o d t :
  tables d !! t = None -> tables (rowEffect m o d) !! t = None.
Proof.
  intros N. destruct o; simpl; [|exact N|];
    rewrite lookup_delete; destruct (decide _); auto.
Qed.

Lemma rowEffect_rows m o d x :
  x ∈ metadataRows (rowEffect m o d) ->
  x ∈ metadataRows d ∧ (o = Swept -> job_id x ≠ job_id m).
Proof.
  destruct o; unfold metadataRows; simpl; try (intros H; split; [exact H|discriminate]).
  intros H. apply list_elem_of_filter in H as [H1 H2].
  split; [exact H2|]. intros _ E. rewrite E, String.eqb_refl in H1. discriminate.
Qed.

Lemma rowEffect_keeps m o d x :
  x ∈ metadataRows d -> job_id x ≠ job_id m -> x ∈ metadataRows (rowEffect m o d).
Proof.
  intros H N. destruct o; unfold metadataRows; simpl; try exact H.
  apply list_elem_of_filter. split; [|exact H].
  apply String.eqb_neq. congruence.
Qed.

(** Tables that no swept row names are as before; tables that were absent
    stay absent. *)
Lemma afterRows_tables ms t : ∀ w,
  t ∉ map table_name ms ->
  tables (db (afterRows env ms w)) !! t = tables (db w) !! t.
Proof.
  induction ms as [|m ms IH]; intros w N; simpl; [reflexivity|].
  rewrite IH by set_solver. simpl. apply rowEffect_tables. set_solver.
Qed.

Lemma afterRows_absent ms t : ∀ w,
  tables (db w) !! t = None -> tables (db (afterRows env ms w)) !! t = None.
Proof.
  induction ms as [|m ms IH]; intros w N; simpl; [exact N|].
  apply IH. simpl. apply rowEffect_absent, N.
Qed.

(** The sweep adds no metadata row and keeps those of other jobs. *)
Lemma afterRows_rows ms x : ∀ w,
  x ∈ metadataRows (db (afterRows env ms w)) -> x ∈ metadataRows (db w).
Proof.
  induction ms as [|m ms IH]; intros w H; simpl in *; [exact H|].
  apply IH in H. simpl in H. apply rowEffect_rows in H as [H _]. exact H.
Qed.

Lemma afterRows_keeps ms x : ∀ w,
  x ∈ metadataRows (db w) -> job_id x ∉ map job_id ms ->
  x ∈ metadataRows (db (afterRows env ms w)).
Proof.
  induction ms as [|m ms IH]; intros w H N; simpl; [exact H|].
  apply IH; [|set_solver]. simpl. apply rowEffect_keeps; [exact H|set_solver].
Qed.

(** With a server that fails on no statement and a table [job_metadata],
    every row is swept: its table is dropped and its metadata row deleted. *)
Lemma afterRows_no_fault ms : ∀ w,
  (∀ n, fault env n = None) -> is_Some (job_metadata (db w)) ->
  Forall (fun o => o = Swept) (sweepOutcomes env ms w)
  ∧ (∀ x, x ∈ metadataRows (db (afterRows env ms w)) -> job_id x ∉ map job_id ms)
  ∧ (∀ t, t ∈ map table_name ms -> tables (db (afterRows env ms w)) !! t = None).
Proof.
  induction ms as [|m ms IH]; intros w F [rows M]; simpl.
  - split; [constructor|]. split; [intros; apply not_elem_of_nil|].
    intros t H. apply elem_of_nil in H. contradiction.
  - assert (O : rowOutcome env w = Swept).
    { unfold rowOutcome. rewrite !F, M. reflexivity. }
    rewrite O.
    destruct (IH (afterRow m Swept w) F) as (A & B & C); [simpl; eauto|].
    split; [constructor; auto|]. split.
    + intros x H. pose proof (B x H) as N. apply afterRows_rows in H. simpl in H.
      apply (rowEffect_rows m Swept) in H as [_ H]. specialize (H eq_refl). set_solver.
    + intros t H. apply elem_of_cons in H as [->|H]; [|auto].
      apply afterRows_absent. simpl. apply lookup_delete_eq.
Qed.

(** Every statement of the loop on which the server fails leaves a line
    on the console, with the table of the row and the error. *)
Lemma afterRows_failure_logged ms : ∀ w n e,
  (length (sent w) <= n < length (sent (afterRows env ms w)))%nat ->
  fault env n = Some e ->
  ∃ m, m ∈ ms
       ∧ ["Error dropping table:"; table_name m; message e]
           ∈ concat (zip_with rowConsole ms (sweepOutcomes env ms w)).
Proof.
  induction ms as [|m ms IH]; intros w n e Hn Fn; simpl in *; [lia|].
  set (o := rowOutcome env w) in *.
  destruct (decide (length (sent (afterRow m o w)) <= n)%nat) as [G|G].
  { destruct (IH (afterRow m o w) n e) as (x & Hx & Hl); [lia|exact Fn|].
    exists x. split; [right; exact Hx|]. apply elem_of_app. right. exact Hl. }
  exists m. split; [left|]. apply elem_of_app. left.
  assert (O : o = DropFailed e ∨ o = DeleteFailed e).
  { subst o. unfold rowOutcome in *. simpl in G. rewrite length_app in G.
    destruct (fault env (length (sent w))) as [e1|] eqn:F1.
    - simpl in G. assert (n = length (sent w)) by lia. subst n. left. congruence.
    - assert (n ≠ length (sent w)) by (intros ->; congruence).
      destruct (fault env (S (length (sent w)))) as [e2|] eqn:F2.
      + simpl in G. assert (n = S (length (sent w))) by lia. subst n. right. congruence.
      + destruct (job_metadata (db w)); simpl in G;
          assert (n = S (length (sent w))) by lia; subst n; congruence. }
  destruct O as [-> | ->]; simpl; left.
Qed.

(** What each row has become after the sweep of a list of rows with
    distinct identifiers and distinct tables, all of them in
    [job_metadata]: the result that goes with its outcome. *)
Lemma afterRows_results d0 ms : ∀ w,
  NoDup (map job_id ms) -> NoDup (map table_name ms) ->
  Forall (fun m => m ∈ metadataRows (db w)) ms ->
  (∀ m, m ∈ ms -> tables (db w) !! table_name m = tables d0 !! table_name m) ->
  Forall2 (rowResult d0 (db (afterRows env ms w))) ms (sweepOutcomes env ms w).
Proof.
  induction ms as [|m ms IH]; intros w Nj Nt In T; simpl; [constructor|].
  apply NoDup_cons in Nj as [Nj1 Nj], Nt as [Nt1 Nt].
  apply Forall_cons in In as [In1 In].
  set (o := rowOutcome env w). constructor.
  - assert (K : m ∈ metadataRows (db w) -> o ≠ Swept ->
                m ∈ metadataRows (db (afterRows env ms (afterRow m o w)))).
    { intros H O. apply afterRows_keeps; [|exact Nj1]. simpl.
      destruct o; [congruence|exact H|exact H]. }
    destruct o as [|e|e] eqn:O; simpl.
    + split.
      * intros H. apply afterRows_rows in H. simpl in H.
        apply (rowEffect_rows m Swept) in H as [_ H]. apply (H eq_refl). reflexivity.
      * apply afterRows_absent. simpl. apply lookup_delete_eq.
    + split; [apply K; [exact In1|discriminate]|].
      rewrite afterRows_tables by exact Nt1. simpl. apply T. left.
    + split; [apply K; [exact In1|discriminate]|].
      apply afterRows_absent. simpl. apply lookup_delete_eq.
  - apply IH; [exact Nj|exact Nt| |].
    + apply Forall_forall. intros x Hx. simpl. apply rowEffect_keeps.
      * rewrite Forall_forall in In. apply In, Hx.
      * intros E. apply Nj1. rewrite <- E. apply (list_elem_of_fmap_2 job_id), Hx.
    + intros x Hx. simpl. rewrite rowEffect_tables; [apply T; right; exact Hx|].
      intros E. apply Nt1. rewrite <- E. apply (list_elem_of_fmap_2 table_name), Hx.
Qed.

(** [cleanupOldTables] when the pool gives a connection and the SELECT
    succeeds: the rows selected are those [expired], and each is swept in
    turn. *)
Lemma cleanupOldTables_eval this w ms :
  connect_error env = None ->
  fault env (length (sent w)) = None ->
  job_metadata (db w) = Some ms ->
  cleanupOldTables this env w =
    (Ok tt,
     release (afterRows env (filter (fun m => expired (tableTTLHours this) (db w) m = true) ms)
                (setDb (db w) (logStatement (SelectOldJobs (tableTTLHours this)) (lease w))))).
Proof.
  intros C F M. unfold cleanupOldTables, bind, connect, finally, clientQuery.
  rewrite C. simpl. rewrite F, M. simpl.
  rewrite forEach_sweepRow. reflexivity.
Qed.

End Sweeper.

Lemma NoDup_map_inj {A B} (f : A -> B) (l : list A) x y :
  NoDup (map f l) -> x ∈ l -> y ∈ l -> f x = f y -> x = y.
Proof.
  induction l as [|a l IH]; simpl; intros N Hx Hy E.
  - apply elem_of_nil in Hx. contradiction.
  - apply NoDup_cons in N as [Na N].
    apply elem_of_cons in Hx as [->|Hx]; apply elem_of_cons in Hy as [->|Hy]; auto.
    + exfalso. apply Na. rewrite E. apply (list_elem_of_fmap_2 f). exact Hy.
    + exfalso. apply Na. rewrite <- E. apply (list_elem_of_fmap_2 f). exact Hx.
Qed.

Lemma NoDup_map_filter {A B} (f : A -> B) (P : A -> Prop) `{∀ x, Decision (P x)} (l : list A) :
  NoDup (map f l) -> NoDup (map f (filter P l)).
Proof.
  induction l as [|a l IH]; simpl; intros N; [constructor|].
  apply NoDup_cons in N as [Na N]. rewrite filter_cons.
  destruct (decide (P a)); [|auto]. simpl. apply NoDup_cons. split; [|auto].
  intros Hin. apply Na. apply list_elem_of_fmap in Hin as (x & -> & Hx).
  apply list_elem_of_filter in Hx as [_ Hx]. apply (list_elem_of_fmap_2 f), Hx.
Qed.

(** C9. A sweep on a pool that gives a connection and a table
    [job_metadata] whose SELECT succeeds, the job identifiers being unique
    (the primary key) and distinct rows naming distinct tables. The rows
    selected are exactly those whose [created_at] is before [NOW()] minus
    the TTL. The outcome of each of them, in order, is the one the
    statements sent for it have: the DROP of its table is sent first and,
    unless the DROP fails, the DELETE of its metadata row next; a row whose
    DROP or DELETE fails gets one line on the console, with the name of its
    table and the error, and the rows after it are processed all the same;
    no failure of the server on a statement of the loop goes without its
    line; the sweep resolves. A row swept is gone and so is its table, whether or
    not the table was there; a row whose DROP failed is left with its table
    as it was; a row whose DELETE failed is left without its table. Every
    row not yet past the TTL is still in [job_metadata] and its table is
    as it was. When no statement fails, every selected row is swept. The
    timer callback hands the instance back as it was, its timer
    included. *)
Theorem cleanupOldTables_sweep (this : Sentinel) (env : Env) (w : World) (ms : list MetaRow) :
  connect_error env = None ->
  fault env (length (sent w)) = None ->
  job_metadata (db w) = Some ms ->
  NoDup (map job_id ms) -> NoDup (map table_name ms) ->
  let selected := filter (fun m => expired (tableTTLHours this) (db w) m = true) ms in
  let outcomes :=
    sweepOutcomes env selected (logStatement (SelectOldJobs (tableTTLHours this)) (lease w)) in
  ∃ w',
    cleanupOldTables this env w = (Ok tt, w')
    ∧ length outcomes = length selected
    ∧ sent w' = sent w ++ (SelectOldJobs (tableTTLHours this)
                           :: concat (zip_with rowStatements selected outcomes))
    ∧ console w' = console w ++ concat (zip_with rowConsole selected outcomes)
    ∧ (∀ n e, (length (sent w) < n < length (sent w'))%nat -> fault env n = Some e ->
         ∃ m, m ∈ selected
              ∧ ["Error dropping table:"; table_name m; message e]
                  ∈ concat (zip_with rowConsole selected outcomes))
    ∧ Forall2 (rowResult (db w) (db w')) selected outcomes
    ∧ (∀ m, m ∈ ms -> expired (tableTTLHours this) (db w) m = false ->
         m ∈ metadataRows (db w')
         ∧ tables (db w') !! table_name m = tables (db w) !! table_name m)
    ∧ ((∀ n, fault env n = None) ->
         Forall (fun o => o = Swept) outcomes
         ∧ ∀ m, m ∈ selected ->
             (m ∉ metadataRows (db w')) ∧ tables (db w') !! table_name m = None)
    ∧ cleanupTick this env w = (this, w').
Proof.
  intros C F M Nj Nt selected.
  pose (w1 := logStatement (SelectOldJobs (tableTTLHours this)) (lease w)).
  fold w1. intros outcomes.
  assert (E : cleanupOldTables this env w = (Ok tt, release (afterRows env selected w1)))
    by (apply cleanupOldTables_eval; assumption).
  exists (release (afterRows env selected w1)).
  destruct (afterRows_log env selected w1) as (L & S & Co & _).
  assert (Sel : ∀ m, m ∈ selected ↔ m ∈ ms ∧ expired (tableTTLHours this) (db w) m = true).
  { intros m. unfold selected. rewrite list_elem_of_filter. tauto. }
  split; [exact E|]. split; [exact L|].
  split; [simpl; rewrite S; simpl; rewrite <- (assoc_L (++)); reflexivity|].
  split; [simpl; rewrite Co; reflexivity|].
  split; [|split; [|split; [|split]]].
  - intros n e Hn Fn. apply (afterRows_failure_logged env selected w1 n e); [|exact Fn].
    simpl in Hn. simpl. rewrite length_app. simpl. lia.
  - apply (afterRows_results env (db w) selected w1).
    + apply NoDup_map_filter, Nj.
    + apply NoDup_map_filter, Nt.
    + apply Forall_forall. intros m Hm. apply Sel in Hm as [Hm _].
      unfold metadataRows. simpl. rewrite M. exact Hm.
    + reflexivity.
  - intros m Hm Hx. simpl. split.
    + apply afterRows_keeps; [unfold metadataRows; simpl; rewrite M; exact Hm|].
      intros Hin. apply list_elem_of_fmap in Hin as (m' & Ej & Hm').
      apply Sel in Hm' as [Hm' Hx'].
      assert (m = m') by (eapply (NoDup_map_inj job_id); eauto). congruence.
    + rewrite afterRows_tables; [reflexivity|].
      intros Hin. apply list_elem_of_fmap in Hin as (m' & Ej & Hm').
      apply Sel in Hm' as [Hm' Hx'].
      assert (m = m') by (eapply (NoDup_map_inj table_name); eauto). congruence.
  - intros NF. destruct (afterRows_no_fault env selected w1 NF) as (A & B & T).
    { simpl. rewrite M. eauto. }
    split; [exact A|]. intros m Hm. simpl. split.
    + intros Hin. apply B in Hin. apply Hin. apply (list_elem_of_fmap_2 job_id). exact Hm.
    + apply T. apply (list_elem_of_fmap_2 table_name). exact Hm.
  - unfold cleanupTick. rewrite E. reflexivity.
Qed.

Lemma cleanupOldTables_sweep_witness :
  ∃ w',
    cleanupOldTables Fixture.smallSentinel (Fixture.envFaultAt 1)
      (Fixture.world Fixture.sweepDb []) = (Ok tt, w')
    ∧ sweepOutcomes (Fixture.envFaultAt 1) [Fixture.oldRow]
        (logStatement (SelectOldJobs 24) (lease (Fixture.world Fixture.sweepDb [])))
      = [DropFailed (Error "connection terminated")]
    ∧ sent w' = [SelectOldJobs 24; DropTableIfExists (tableNameOf Fixture.uuidA)]
    ∧ console w' = [["Error dropping table:"; tableNameOf Fixture.uuidA; "connection terminated"]]
    ∧ Fixture.oldRow ∈ metadataRows (db w')
    ∧ Fixture.freshRow ∈ metadataRows (db w')
    ∧ tables (db w') !! tableNameOf Fixture.uuidB = Some Fixture.someTable
    ∧ cleanupTick Fixture.smallSentinel (Fixture.envFaultAt 1)
        (Fixture.world Fixture.sweepDb []) = (Fixture.smallSentinel, w').
Proof.
  destruct (cleanupOldTables_sweep Fixture.smallSentinel (Fixture.envFaultAt 1)
              (Fixture.world Fixture.sweepDb []) [Fixture.oldRow; Fixture.freshRow])
    as (w' & E & _ & S & C & _ & R & K & _ & T);
    [reflexivity|reflexivity|reflexivity
    |apply (bool_decide_unpack _); vm_compute; reflexivity
    |apply (bool_decide_unpack _); vm_compute; reflexivity|].
  exists w'.
  destruct (K Fixture.freshRow) as [K1 K2]; [set_solver|reflexivity|].
  change (filter _ _) with [Fixture.oldRow] in S, C, R.
  change (sweepOutcomes _ _ _) with [DropFailed (Error "connection terminated")] in S, C, R.
  apply Forall2_cons_1 in R as [[R _] _].
  split; [exact E|]. split; [reflexivity|]. split; [exact S|]. split; [exact C|].
  split; [exact R|]. split; [exact K1|]. split; [|exact T].
  change (table_name Fixture.freshRow) with (tableNameOf Fixture.uuidB) in K2.
  rewrite K2. vm_compute. reflexivity.
Defined.

(** * Further properties *)

(** ** The validator *)

Section Validator.

Lemma append_nil_l (s : string) : EmptyString +:+ s = s.
Proof. reflexivity. Qed.

Lemma append_cons (c : ascii) (a b : string) : String c a +:+ b = String c (a +:+ b).
Proof. reflexivity. Qed.

Lemma append_empty (a b : string) : a +:+ b = EmptyString -> a = EmptyString ∧ b = EmptyString.
Proof. destruct a; [rewrite append_nil_l; auto|rewrite append_cons; discriminate]. Qed.

Lemma readWord_spec (kw : string) : ∀ s rest,
  readWord kw s = Some rest ↔ ∃ w, s = w +:+ rest ∧ canonicalize w = kw.
Proof.
  induction kw as [|a kw IH]; intros s rest; simpl.
  - split.
    + intros H. inversion H; subst. exists EmptyString. auto.
    + intros ([|b w] & -> & U); [reflexivity|discriminate U].
  - destruct s as [|b s].
    + split; [discriminate|]. intros ([|c w] & E & U); [discriminate U|discriminate E].
    + destruct (Ascii.eqb (upperChar b) a) eqn:Eb.
      * apply Ascii.eqb_eq in Eb. rewrite IH. split.
        -- intros (w & -> & U). exists (String b w). rewrite append_cons. simpl.
           split; congruence.
        -- intros ([|c w] & E & U); [discriminate U|].
           rewrite append_cons in E. simpl in U. inversion E; inversion U; subst. eauto.
      * apply Ascii.eqb_neq in Eb. split; [discriminate|].
        intros ([|c w] & E & U); [discriminate U|].
        rewrite append_cons in E. simpl in U. inversion E; inversion U; subst. contradiction.
Qed.

Lemma matchesHere_spec prev s :
  matchesHere prev s = true ↔
    boundaryBefore prev = true
    ∧ ∃ w post, s = w +:+ post ∧ canonicalize w ∈ forbiddenWords ∧ boundaryAfter post = true.
Proof.
  unfold matchesHere. rewrite andb_true_iff, existsb_exists.
  split; intros [B H]; (split; [exact B|]).
  - destruct H as (kw & Hin & Hm).
    destruct (readWord kw s) as [rest|] eqn:R; [|discriminate].
    apply readWord_spec in R as (w & -> & U).
    exists w, rest. subst kw. split; [reflexivity|]. split; [|exact Hm].
    apply list_elem_of_In. exact Hin.
  - destruct H as (w & post & -> & Hin & A).
    exists (canonicalize w). split; [apply list_elem_of_In; exact Hin|].
    assert (R : readWord (canonicalize w) (w +:+ post) = Some post)
      by (apply readWord_spec; eauto).
    rewrite R. exact A.
Qed.

Lemma forbidden_not_empty w : canonicalize w ∈ forbiddenWords -> w ≠ EmptyString.
Proof.
  intros H ->. simpl in H. unfold forbiddenWords in H.
  repeat (apply elem_of_cons in H as [H|H]; [discriminate H|]).
  apply elem_of_nil in H. exact H.
Qed.

Lemma scanFrom_spec (s : string) : ∀ prev,
  scanFrom prev s = true ↔
    ∃ pre w post,
      s = pre +:+ w +:+ post
      ∧ canonicalize w ∈ forbiddenWords
      ∧ boundaryBefore (match lastChar pre with Some l => Some l | None => prev end) = true
      ∧ boundaryAfter post = true.
Proof.
  induction s as [|c r IH]; intros prev.
  - split.
    + simpl. rewrite orb_false_r. intros H. apply matchesHere_spec in H as (B & w & post & E & Hin & A).
      exists EmptyString, w, post. split; [exact E|]. split; [exact Hin|].
      split; [exact B|exact A].
    + intros (pre & w & post & E & Hin & _). exfalso.
      symmetry in E. apply append_empty in E as [_ E]. apply append_empty in E as [E _].
      exact (forbidden_not_empty w Hin E).
  - change (scanFrom prev (String c r))
      with (matchesHere prev (String c r) || scanFrom (Some c) r).
    rewrite orb_true_iff, matchesHere_spec, IH. split.
    + intros [(B & w & post & E & Hin & A)|(pre & w & post & E & Hin & B & A)].
      * exists EmptyString, w, post. split; [exact E|]. split; [exact Hin|].
        split; [exact B|exact A].
      * exists (String c pre), w, post. rewrite append_cons, E.
        split; [reflexivity|]. split; [exact Hin|]. split; [|exact A].
        simpl. destruct (lastChar pre); exact B.
    + intros ([|c' pre] & w & post & E & Hin & B & A).
      * left. split; [exact B|]. exists w, post. auto.
      * right. rewrite append_cons in E. inversion E; subst c' r.
        exists pre, w, post. split; [reflexivity|]. split; [exact Hin|].
        split; [|exact A]. simpl in B. destruct (lastChar pre); exact B.
Qed.

End Validator.

Lemma forbiddenRegexTest_holds (q : string) :
  forbiddenRegexTest q = true ↔ holdsForbiddenWord q.
Proof.
  unfold forbiddenRegexTest, holdsForbiddenWord. rewrite scanFrom_spec.
  split; intros (pre & w & post & E & Hin & B & A); exists pre, w, post;
    (split; [exact E|]); (split; [exact Hin|]); (split; [|exact A]);
    destruct (lastChar pre); exact B.
Qed.

(** X2. The test of the regular expression is true exactly when the query
    holds DROP, UPDATE, DELETE, INSERT or ALTER, in any mix of cases, with
    no letter, digit or underscore right before it or right after it. *)
Theorem forbiddenRegexTest_spec (q : string) :
  forbiddenRegexTest q = true ↔ holdsForbiddenWord q.
Proof. apply forbiddenRegexTest_holds. Qed.

(** X1. For every case mapping that maps no character to or from a
    semicolon, as that of Unicode does: a query passes validation exactly
    when, trimmed and upper-cased, it begins with [SELECT ], it holds no
    semicolon anywhere, and it holds none of the forbidden words as a whole
    word. *)
Theorem validateSelectQuery_Ok_iff {U : CaseMapping} (q : string) :
  keepsSemicolons U ->
  (validateSelectQuery q = Ok tt ↔
     startsWith (toUpperCase (trim q)) "SELECT " = true
     ∧ includes q ";" = false
     ∧ ¬ holdsForbiddenWord q).
Proof.
  intros K.
  rewrite <- forbiddenRegexTest_holds, <- (includes_semicolon_normalized K).
  unfold validateSelectQuery.
  destruct (startsWith (toUpperCase (trim q)) "SELECT "); simpl;
    [|split; [discriminate|intros [H _]; discriminate H]].
  destruct (includes (toUpperCase (trim q)) ";");
    [split; [discriminate|intros (_ & H & _); discriminate H]|].
  destruct (forbiddenRegexTest q).
  - split; [discriminate|]. intros (_ & _ & H). destruct H. reflexivity.
  - split; [|reflexivity]. intros _. repeat split. discriminate.
Qed.

Lemma validateSelectQuery_Ok_iff_witness :
  keepsSemicolons Fixture.caseMapping
  ∧ (validateSelectQuery (U := Fixture.caseMapping) (Fixture.nbsp +:+ "select 1 AS x") = Ok tt ↔
       startsWith (toUpperCase (CaseMapping := Fixture.caseMapping)
                     (trim (Fixture.nbsp +:+ "select 1 AS x"))) "SELECT " = true
       ∧ includes (Fixture.nbsp +:+ "select 1 AS x") ";" = false
       ∧ ¬ holdsForbiddenWord (Fixture.nbsp +:+ "select 1 AS x")).
Proof.
  split; [exact fixture_keepsSemicolons|].
  apply (validateSelectQuery_Ok_iff (U := Fixture.caseMapping)
           (Fixture.nbsp +:+ "select 1 AS x")).
  exact fixture_keepsSemicolons.
Defined.

(** ** Submission, as a whole *)

(** The ways a call can end. *)
Lemma createQueryJob_cases {U : CaseMapping}
    (this : Sentinel) (env : Env) (uuid q : string) (ps : list Any) (w : World) :
  match createQueryJob this env uuid q ps w with
  | (Ok id, w') =>
      queueFull this w = false ∧ validateSelectQuery q = Ok tt ∧ enqueue_error env = None
      ∧ id = uuid ∧ w' = enqueue {| jobId := uuid; query := q; params := ps |} w
  | (Throws _, w') => w' = w
  end.
Proof.
  unfold createQueryJob, queueFull.
  destruct (maxQueueSize this <=? getWaitingCount w)%Z; simpl; [auto|].
  destruct (validateSelectQuery q) as [[]|e]; simpl; [|reflexivity].
  destruct (enqueue_error env); simpl; [reflexivity|].
  repeat split.
Qed.

(** X3. When [createQueryJob] returns, the count read was below
    [maxQueueSize], the query passes validation and the queue accepted the
    entry; the identifier is the one drawn, and the entry, with the query
    and the parameters as given, stands behind those already waiting,
    nothing else having changed. When it throws, whatever the cause,
    nothing has been enqueued: the world is as it was. *)
Theorem createQueryJob_outcome {U : CaseMapping}
    (this : Sentinel) (env : Env) (uuid q : string) (ps : list Any) (w : World) :
  match createQueryJob this env uuid q ps w with
  | (Ok id, w') =>
      queueFull this w = false ∧ validateSelectQuery q = Ok tt ∧ enqueue_error env = None
      ∧ id = uuid
      ∧ waiting w' = waiting w ++ [{| jobId := uuid; query := q; params := ps |}]
      ∧ db w' = db w ∧ emitted w' = emitted w ∧ sent w' = sent w ∧ leased w' = leased w
  | (Throws _, w') => w' = w
  end.
Proof.
  pose proof (createQueryJob_cases this env uuid q ps w) as H.
  destruct (createQueryJob this env uuid q ps w) as [[id|e] w']; [|exact H].
  destruct H as (F & V & Q & I & ->). repeat split; assumption.
Qed.

(** When the queue refuses the entry, the error names the cause. *)
Lemma createQueryJob_enqueue_failure {U : CaseMapping}
    (this : Sentinel) (env : Env) (uuid q : string) (ps : list Any) (w : World) (err : JsError) :
  queueFull this w = false -> validateSelectQuery q = Ok tt -> enqueue_error env = Some err ->
  createQueryJob this env uuid q ps w =
    (Throws (Error ("Unable to enqueue job: " +:+ message err)), w).
Proof. unfold createQueryJob, queueFull. intros -> -> ->. reflexivity. Qed.




(** ** The job executor, path by path *)

Section Paths.

Variable env : Env.

Lemma clientQuery_ok s w r d :
  fault env (length (sent w)) = None -> execute env s (db w) = Ok (r, d) ->
  clientQuery env s w = (Ok r, setDb d (logStatement s w)).
Proof. intros F X. unfold clientQuery. rewrite F, X. reflexivity. Qed.

Lemma clientQuery_refused s w e :
  fault env (length (sent w)) = None -> execute env s (db w) = Throws e ->
  clientQuery env s w = (Throws e, logStatement s w).
Proof. intros F X. unfold clientQuery. rewrite F, X. reflexivity. Qed.




Lemma resultColumns_names (fs : list Field) : map fst (resultColumns fs) = map name fs.
Proof. unfold resultColumns. rewrite map_map. reflexivity. Qed.



End Paths.



(** The cells of an INSERT are in the order of [Object.keys], array
    indices first, and a number beyond the safe integers is bound as
    [String] prints it. *)
Example insertStatement_order :
  insertStatement "t" [("b", ANull); ("2", ANumber 7); ("a", AString "x"); ("10", AUndefined);
                       ("1", AOther "1e+21" "1e+21")]
  = InsertRow "t" ["1"; "2"; "10"; "b"; "a"] [Some "1e+21"; Some "7"; None; None; Some "x"].
Proof. reflexivity. Qed.

(** X7. A job picked up while a table of its name exists already, as when
    a job is processed a second time: the CREATE is refused, [handleJob]
    raises the failure event with that error and rejects, and neither the
    tables nor the metadata rows have changed; the first result is not
    overwritten. *)
Theorem handleJob_existing_table
    (env : Env) (job : QueueEntry) (w : World) (probe : QueryResult) (t : Table) :
  connect_error env = None ->
  (∀ n, fault env n = None) ->
  run_query env (query job +:+ " LIMIT 0") (params job) (db w) = Ok probe ->
  tables (db w) !! tableNameOf (jobId job) = Some t ->
  let refusal := Error ("relation " +:+ quoted (tableNameOf (jobId job)) +:+ " already exists") in
  ∃ e' w', handleJob env job w = (Throws e', w')
           ∧ emitted w' = emitted w ++ [(SENTINEL_JOB_FAILED (jobId job), PFailed refusal)]
           ∧ tables (db w') = tables (db w)
           ∧ metadataRows (db w') = metadataRows (db w)
           ∧ sent w' = sent w ++ take 3 (jobPlan job (fields probe) []).
Proof.
  intros C F P T refusal.
  set (w0 := lease w).
  set (w1 := setDb (db w) (logStatement (UserQuery (query job +:+ " LIMIT 0") (params job)) w0)).
  set (d2 := setMetadata (Some (metadataRows (db w))) (db w)).
  set (w2 := setDb d2 (logStatement CreateMetadataTable w1)).
  assert (E1 : clientQuery env (UserQuery (query job +:+ " LIMIT 0") (params job)) w0
               = (Ok probe, w1)).
  { apply clientQuery_ok; [apply F|]. cbn [execute]. cbn. rewrite P. reflexivity. }
  assert (E2 : clientQuery env CreateMetadataTable w1 = (Ok noRows, w2)).
  { apply clientQuery_ok; [apply F|]. cbn. unfold d2, metadataRows, setMetadata.
    destruct (db w) as [[ms|] tbs nw]; reflexivity. }
  assert (E3 : clientQuery env (CreateTable (tableNameOf (jobId job))
                                  (resultColumns (fields probe))) w2
               = (Throws refusal,
                  logStatement (CreateTable (tableNameOf (jobId job))
                                  (resultColumns (fields probe))) w2)).
  { apply clientQuery_refused; [apply F|]. cbn [execute].
    cbn [db w2 setDb d2 setMetadata tables]. rewrite T. reflexivity. }
  assert (R : runSteps env job w0
              = (Throws refusal,
                 logStatement (CreateTable (tableNameOf (jobId job))
                                 (resultColumns (fields probe))) w2)).
  { unfold runSteps, bind. rewrite E1, E2.
    change (map (λ field : Field, (name field, mapPostgresType (dataTypeID field))) (fields probe))
      with (resultColumns (fields probe)).
    rewrite E3. reflexivity. }
  rewrite (handleJob_connected env job w C). fold w0. rewrite R.
  eexists _, _. split; [reflexivity|]. cbn.
  split; [reflexivity|]. split; [reflexivity|].
  split; [unfold metadataRows; destruct (job_metadata (db w)); reflexivity|].
  rewrite <- !app_assoc. reflexivity.
Qed.

Lemma handleJob_existing_table_witness :
  ∃ e' w', handleJob Fixture.env0 Fixture.jobA Fixture.afterJobA = (Throws e', w')
           ∧ emitted w' = emitted Fixture.afterJobA ++
               [(SENTINEL_JOB_FAILED Fixture.uuidA,
                 PFailed (Error ("relation " +:+ quoted (tableNameOf Fixture.uuidA)
                                 +:+ " already exists")))]
           ∧ tables (db w') = tables (db Fixture.afterJobA)
           ∧ metadataRows (db w') = metadataRows (db Fixture.afterJobA)
           ∧ sent w' = sent Fixture.afterJobA ++ take 3 (jobPlan Fixture.jobA [{| name := "x"; dataTypeID := 23 |}] []).
Proof.
  eapply (handleJob_existing_table Fixture.env0 Fixture.jobA Fixture.afterJobA Fixture.probeA);
    [reflexivity|intros; reflexivity|reflexivity|vm_compute; reflexivity].
Defined.

(** X8. A job whose probe the server refuses, as for a column that does
    not exist: the probe is the only statement sent, the database is as it
    was, and the failure event carries the error of the server. *)
Theorem handleJob_probe_refused
    (env : Env) (job : QueueEntry) (w : World) (e : JsError) :
  connect_error env = None ->
  fault env (length (sent w)) = None ->
  run_query env (query job +:+ " LIMIT 0") (params job) (db w) = Throws e ->
  ∃ e' w', handleJob env job w = (Throws e', w')
           ∧ emitted w' = emitted w ++ [(SENTINEL_JOB_FAILED (jobId job), PFailed e)]
           ∧ db w' = db w
           ∧ sent w' = sent w ++ [UserQuery (query job +:+ " LIMIT 0") (params job)]
           ∧ leased w' = leased w.
Proof.
  intros C F P.
  assert (R : runSteps env job (lease w)
              = (Throws e, logStatement (UserQuery (query job +:+ " LIMIT 0") (params job))
                             (lease w))).
  { unfold runSteps, bind. rewrite (clientQuery_refused env _ (lease w) e); [reflexivity|exact F|].
    cbn. rewrite P. reflexivity. }
  rewrite (handleJob_connected env job w C), R.
  eexists _, _. split; [reflexivity|]. cbn. repeat split.
Qed.

Lemma handleJob_probe_refused_witness :
  ∃ e' w', handleJob Fixture.envRefusing Fixture.jobA Fixture.w0 = (Throws e', w')
           ∧ emitted w' = [(SENTINEL_JOB_FAILED Fixture.uuidA,
                            PFailed (Error "column nope does not exist"))]
           ∧ db w' = Fixture.emptyDb
           ∧ sent w' = [UserQuery "SELECT 1 AS x LIMIT 0" [ANumber 5]]
           ∧ leased w' = 0.
Proof.
  apply (handleJob_probe_refused Fixture.envRefusing Fixture.jobA Fixture.w0
           (Error "column nope does not exist")); reflexivity.
Defined.

Section Order.

Variable env : Env.

Lemma insertRows_sent t (rs : list Row) : ∀ w r w',
  forEach rs (insertRowOf env t) w = (r, w') ->
  ∃ k, sent w' = sent w ++ take k (map (insertStatement t) rs)
       ∧ (∀ u, r = Ok u -> k = length rs).
Proof.
  induction rs as [|row rs IH]; intros w r w' H; simpl in H.
  - inversion H; subst. exists 0. rewrite app_nil_r. split; reflexivity.
  - unfold bind at 1, insertRowOf at 1, bind at 1 in H.
    next_query H q d Hd.
    + apply IH in H as (k & Hk & Hr). exists (S k). rewrite Hk. simpl.
      rewrite <- app_assoc. split; [reflexivity|].
      intros u Hu. rewrite (Hr u Hu). reflexivity.
    + inversion H; subst; clear H. exists 1. simpl. rewrite take_0.
      split; [reflexivity|discriminate].
Qed.

(** The database when the query of the job is run: the table and the
    metadata row are in, and nothing else has moved. *)
Lemma registered_spec j t cols d1 q2 d2 q3 d3 q4 d4 :
  execute env CreateMetadataTable d1 = Ok (q2, d2) ->
  execute env (CreateTable t cols) d2 = Ok (q3, d3) ->
  execute env (InsertMetadata j t) d3 = Ok (q4, d4) ->
  d4 = {| job_metadata :=
            Some (metadataRows d1 ++ [{| job_id := j; table_name := t; created_at := now d1 |}]);
          tables := <[t := {| columns := cols; content := [] |}]> (tables d1);
          now := now d1 |}.
Proof.
  intros H2 H3 H4.
  assert (E2 : job_metadata d2 = Some (metadataRows d1) ∧ tables d2 = tables d1
               ∧ now d2 = now d1).
  { simpl in H2. unfold metadataRows.
    destruct (job_metadata d1) eqn:M1; inversion H2; subst; simpl; auto. }
  destruct E2 as (M2 & T2 & N2).
  simpl in H3. destruct (tables d2 !! t); [discriminate|].
  destruct (bool_decide (NoDup (map fst cols))); [|discriminate].
  inversion H3; subst q3 d3; clear H3.
  simpl in H4. rewrite M2 in H4.
  destruct (existsb _ _); [discriminate|].
  inversion H4; subst q4 d4; clear H4.
  unfold setMetadata, setTables. simpl. rewrite T2, N2. reflexivity.
Qed.

(** The statements of steps 1 to 5 are always a beginning of the plan of
    the job, for the fields the probe returned and the rows fetched, and
    the whole of it when the steps succeed. *)
Lemma runSteps_sent job w r w' :
  runSteps env job w = (r, w') ->
  ∃ k, sent w' = sent w ++ take k (planOf env job (db w))
       ∧ (∀ tn, r = Ok tn -> sent w' = sent w ++ planOf env job (db w)).
Proof.
  intros H. unfold runSteps, bind in H.
  next_query H q1 d1 H1;
    [|inversion H; subst; clear H; exists 1; split; [reflexivity|discriminate]].
  assert (P : probedFields env job (db w) = fields q1 ∧ d1 = db w).
  { unfold probedFields, answerOf. destruct H1 as [_ H1]. cbn [execute] in H1.
    destruct (run_query env (query job +:+ " LIMIT 0") (params job) (db w));
      inversion H1; subst; auto. }
  destruct P as [P ->].
  next_query H q2 d2 H2;
    [|inversion H; subst; clear H; exists 2; simpl;
      rewrite <- app_assoc; split; [reflexivity|discriminate]].
  next_query H q3 d3 H3;
    [|inversion H; subst; clear H; exists 3; unfold planOf; rewrite P; simpl;
      rewrite <- !app_assoc; split; [reflexivity|discriminate]].
  next_query H q4 d4 H4;
    [|inversion H; subst; clear H; exists 4; unfold planOf; rewrite P; simpl;
      rewrite <- !app_assoc; split; [reflexivity|discriminate]].
  destruct H2 as [_ H2], H3 as [_ H3], H4 as [_ H4].
  cbn [db setDb logStatement] in H2, H3, H4.
  pose proof (registered_spec _ _ _ _ _ _ _ _ _ _ H2 H3 H4) as R.
  next_query H q5 d5 H5;
    [|inversion H; subst; clear H; exists 5; unfold planOf; rewrite P; simpl;
      rewrite <- !app_assoc; split; [reflexivity|discriminate]].
  destruct H5 as [_ H5]. cbn [db setDb logStatement] in H5.
  assert (Q : fetchedRows env job (db w) = rows q5).
  { unfold fetchedRows, answerOf, registered. rewrite P.
    change (resultColumns (fields q1))
      with (map (fun field => (name field, mapPostgresType (dataTypeID field))) (fields q1)).
    rewrite <- R. cbn [execute] in H5.
    destruct (run_query env (query job) (params job) d4); inversion H5; subst; auto. }
  destruct (forEach (rows q5) _ _) as [r6 w6] eqn:E6.
  apply insertRows_sent in E6 as (k & Hk & Hr). simpl in Hk.
  assert (S6 : sent w6 = sent w ++ take (5 + k) (planOf env job (db w))).
  { rewrite Hk. unfold planOf, jobPlan, resultColumns. rewrite P, Q. simpl.
    rewrite <- !app_assoc. reflexivity. }
  exists (5 + k). destruct r6 as [u|e]; inversion H; subst; clear H.
  - split; [exact S6|]. intros _ _. rewrite S6, (Hr u eq_refl).
    unfold planOf, jobPlan. rewrite Q. simpl. do 6 f_equal.
    apply take_ge. rewrite length_map. lia.
  - split; [exact S6|discriminate].
Qed.

End Order.

(** X9. Whatever happens, the statements [handleJob] sends are a beginning
    of the plan of the job: the probe, the creation of [job_metadata], the
    creation of the table with the columns of the fields the probe
    returned, the metadata row, the query, then one insert for each row the
    query returned, in this order and with nothing in between; when
    [handleJob] resolves, the whole plan has been sent. *)
Theorem handleJob_follows_plan (env : Env) (job : QueueEntry) (w : World) :
  (∃ k, sent (snd (handleJob env job w)) = sent w ++ take k (planOf env job (db w)))
  ∧ (∀ tn, fst (handleJob env job w) = Ok tn ->
       sent (snd (handleJob env job w)) = sent w ++ planOf env job (db w)).
Proof.
  destruct (connect_error env) as [e|] eqn:C.
  - rewrite (handleJob_not_connected env job w e C). split; [|discriminate].
    exists 0. simpl. rewrite app_nil_r. reflexivity.
  - rewrite (handleJob_connected env job w C).
    destruct (runSteps env job (lease w)) as [r1 w1] eqn:R.
    apply runSteps_sent in R as (k & S & A). cbn [db lease] in S, A.
    destruct r1 as [tn|e]; simpl; [destruct (callListeners _ _)|]; simpl.
    + split; [eauto|discriminate].
    + split; [eauto|]. intros _ _. apply (A tn). reflexivity.
    + split; [eauto|discriminate].
Qed.

(** ** Connections, and what the lookup leaves alone *)

Section Connections.

Variable env : Env.

(** The sweep of any row object resolves and keeps the queue, the events
    and the connections as they are. *)
Lemma sweepRow_frame (row : Row) (w : World) :
  ∃ w', sweepRow env row w = (Ok tt, w')
        ∧ leased w' = leased w ∧ waiting w' = waiting w ∧ emitted w' = emitted w.
Proof.
  destruct (sweepRow env row w) as [r w'] eqn:H.
  unfold sweepRow, tryCatch, bind in H.
  next_query H q1 d1 H1; [|inversion H; subst; eexists; repeat split].
  next_query H q2 d2 H2; inversion H; subst; eexists; repeat split.
Qed.

Lemma forEach_sweepRow_frame (rs : list Row) : ∀ w,
  ∃ w', forEach rs (sweepRow env) w = (Ok tt, w')
        ∧ leased w' = leased w ∧ waiting w' = waiting w ∧ emitted w' = emitted w.
Proof.
  induction rs as [|row rs IH]; intros w; simpl.
  - exists w. repeat split.
  - unfold bind. destruct (sweepRow_frame row w) as (w1 & -> & L1 & W1 & E1).
    destruct (IH w1) as (w2 & -> & L2 & W2 & E2).
    exists w2. repeat split; congruence.
Qed.

Lemma cleanupOldTables_frame this w :
  let w' := snd (cleanupOldTables this env w) in
  leased w' = leased w ∧ waiting w' = waiting w ∧ emitted w' = emitted w.
Proof.
  unfold cleanupOldTables, bind, connect, finally.
  destruct (connect_error env); [repeat split|].
  destruct (clientQuery env _ (lease w)) as [r w1] eqn:E.
  apply clientQuery_spec in E as (d & -> & Hd).
  destruct r as [q|e]; [|repeat split].
  destruct (forEach_sweepRow_frame (rows q)
              (setDb d (logStatement (SelectOldJobs (tableTTLHours this)) (lease w))))
    as (w2 & -> & L & W & E).
  simpl in *. rewrite L, W, E. repeat split.
Qed.

Lemma getTableNameForJob_frame j w :
  let w' := snd (getTableNameForJob env j w) in
  db w' = db w ∧ emitted w' = emitted w ∧ waiting w' = waiting w
  ∧ console w' = console w ∧ leased w' = leased w
  ∧ (sent w' = sent w ∨ sent w' = sent w ++ [SelectTableName j]).
Proof.
  unfold getTableNameForJob, tryCatch, bind, poolQuery, bind, connect, finally, throw.
  destruct (connect_error env); [repeat split; left; reflexivity|].
  destruct (clientQuery env (SelectTableName j) (lease w)) as [r w1] eqn:E.
  apply clientQuery_spec in E as (d & -> & Hd).
  assert (D : d = db w).
  { destruct r as [q|e]; [|exact Hd]. destruct Hd as [_ Hd]. simpl in Hd.
    destruct (job_metadata (db w)); inversion Hd. reflexivity. }
  subst d. destruct r as [q|e]; [destruct (rows q)|]; simpl;
    repeat split; right; reflexivity.
Qed.

Lemma handleJob_frame job w :
  let w' := snd (handleJob env job w) in
  leased w' = leased w ∧ waiting w' = waiting w ∧ console w' = console w.
Proof.
  destruct (connect_error env) as [e|] eqn:C.
  - rewrite (handleJob_not_connected env job w e C). repeat split.
  - rewrite (handleJob_connected env job w C).
    destruct (runSteps env job (lease w)) as [r1 w1] eqn:R.
    apply runSteps_spec in R as ((_ & Fw & Fc & Fl) & _). simpl in *.
    destruct r1 as [tn|e]; simpl; [destruct (callListeners _ _)|]; simpl;
      rewrite Fw, Fc, Fl; repeat split.
Qed.

End Connections.

(** X10. No connection leaks: after [handleJob], after
    [getTableNameForJob] and after [cleanupOldTables], whether they
    succeed, reject after connecting, or fail to connect, the number of
    connections checked out of the pool is what it was before the call. *)
Theorem connections_released
    (this : Sentinel) (env : Env) (job : QueueEntry) (j : string) (w : World) :
  leased (snd (handleJob env job w)) = leased w
  ∧ leased (snd (getTableNameForJob env j w)) = leased w
  ∧ leased (snd (cleanupOldTables this env w)) = leased w.
Proof.
  split; [apply handleJob_frame|]. split.
  - apply getTableNameForJob_frame.
  - apply cleanupOldTables_frame.
Qed.

(** X11. The lookup only reads: it leaves the database, the events, the
    queue and the console as they were, and sends at most the one SELECT;
    the worker and the sweep never touch the queue, and the worker never
    writes to the console. *)
Theorem lookup_reads_only
    (this : Sentinel) (env : Env) (job : QueueEntry) (j : string) (w : World) :
  (let w' := snd (getTableNameForJob env j w) in
   db w' = db w ∧ emitted w' = emitted w ∧ waiting w' = waiting w ∧ console w' = console w
   ∧ (sent w' = sent w ∨ sent w' = sent w ++ [SelectTableName j]))
  ∧ (let w' := snd (handleJob env job w) in waiting w' = waiting w ∧ console w' = console w)
  ∧ (let w' := snd (cleanupOldTables this env w) in
     waiting w' = waiting w ∧ emitted w' = emitted w).
Proof.
  split; [|split].
  - destruct (getTableNameForJob_frame env j w) as (D & E & W & C & _ & S). auto.
  - destruct (handleJob_frame env job w) as (_ & W & C). auto.
  - destruct (cleanupOldTables_frame env this w) as (_ & W & E). auto.
Qed.

(** ** Names and types *)

Lemma replaceAll_removes (c d : ascii) (s : string) :
  c ≠ d -> hasChar c (replaceAll c d s) = false.
Proof.
  intros N. induction s as [|a r IH]; [reflexivity|]. cbn [replaceAll hasChar].
  rewrite IH, orb_false_r. destruct (Ascii.eqb a c) eqn:E.
  - apply Ascii.eqb_neq. exact N.
  - rewrite Ascii.eqb_sym. exact E.
Qed.

Lemma hasChar_append c (a b : string) : hasChar c (a +:+ b) = hasChar c a || hasChar c b.
Proof.
  induction a as [|x a IH]; [reflexivity|].
  rewrite append_cons. cbn [hasChar]. rewrite IH, orb_assoc. reflexivity.
Qed.

Lemma startsWith_append (p s : string) : startsWith (p +:+ s) p = true.
Proof.
  induction p as [|c p IH]; [destruct s; reflexivity|].
  rewrite append_cons. cbn [startsWith]. rewrite Ascii.eqb_refl. exact IH.
Qed.

(** X12. For every job identifier, UUID or not, the table name begins
    with [query_results_], is fourteen characters longer than the
    identifier, holds no hyphen, and is never [job_metadata]: a result
    table cannot take the place of the control table. *)
Theorem tableNameOf_shape (j : string) :
  startsWith (tableNameOf j) "query_results_" = true
  ∧ String.length (tableNameOf j) = 14 + String.length j
  ∧ includes (tableNameOf j) "-" = false
  ∧ tableNameOf j ≠ "job_metadata".
Proof.
  split; [apply startsWith_append|]. split; [|split].
  - unfold tableNameOf. rewrite append_length, replaceAll_length. reflexivity.
  - rewrite includes_char. unfold tableNameOf. rewrite hasChar_append.
    rewrite replaceAll_removes by discriminate. reflexivity.
  - change (tableNameOf j) with (String "q" ("uery_results_" +:+ replaceAll "-" "_" j)).
    discriminate.
Qed.

(** X13. The columns [handleJob] declares are as many as the fields of the
    probe, with the same names in the same order, and each has one of the
    eight storage types, whatever the type identifiers are. *)
Theorem resultColumns_spec (fs : list Field) :
  map fst (resultColumns fs) = map name fs
  ∧ Forall (fun col => snd col ∈ storageTypes) (resultColumns fs).
Proof.
  split; [apply resultColumns_names|].
  unfold resultColumns. apply Forall_forall. intros col H.
  apply list_elem_of_fmap in H as (f & -> & _). cbn [snd].
  destruct (decide (dataTypeID f ∈ recognizedTypeIds)) as [R|R].
  - unfold recognizedTypeIds in R.
    repeat (apply elem_of_cons in R as [->|R];
            [apply list_elem_of_In; simpl; tauto|]).
    apply elem_of_nil in R. contradiction.
  - rewrite (mapPostgresType_fallback _ R). apply list_elem_of_In. simpl. tauto.
Qed.

(** ** The sweep, run after run *)

Section Sweeps.

Variable env : Env.

Lemma rowEffect_now m o d : now (rowEffect m o d) = now d.
Proof. destruct o; reflexivity. Qed.

Lemma afterRows_now ms : ∀ w, now (db (afterRows env ms w)) = now (db w).
Proof.
  induction ms as [|m ms IH]; intros w; simpl; [reflexivity|].
  rewrite IH. simpl. apply rowEffect_now.
Qed.

Lemma rowEffect_meta_some m o d :
  is_Some (job_metadata d) -> is_Some (job_metadata (rowEffect m o d)).
Proof. destruct o; simpl; eauto. Qed.

Lemma afterRows_meta_some ms : ∀ w,
  is_Some (job_metadata (db w)) -> is_Some (job_metadata (db (afterRows env ms w))).
Proof.
  induction ms as [|m ms IH]; intros w H; simpl; [exact H|].
  apply IH. simpl. apply rowEffect_meta_some, H.
Qed.

Lemma filter_none {A} (P : A -> Prop) `{∀ x, Decision (P x)} (l : list A) :
  (∀ x, x ∈ l -> ¬ P x) -> filter P l = [].
Proof.
  induction l as [|a l IH]; intros N; [reflexivity|].
  rewrite filter_cons. destruct (decide (P a)) as [Pa|_].
  - destruct (N a); [left|exact Pa].
  - apply IH. intros x Hx. apply N. right. exact Hx.
Qed.

(** After a sweep on which no statement failed, no metadata row is past
    the TTL any more at the time of the sweep. *)
Lemma swept_none_expired this w ms :
  connect_error env = None -> (∀ n, fault env n = None) ->
  job_metadata (db w) = Some ms ->
  let w1 := snd (cleanupOldTables this env w) in
  (∃ ms1, job_metadata (db w1) = Some ms1)
  ∧ now (db w1) = now (db w)
  ∧ (∀ x, x ∈ metadataRows (db w1) ->
       x ∈ ms ∧ expired (tableTTLHours this) (db w) x = false
       ∧ job_id x ∉ map job_id (filter (fun m => expired (tableTTLHours this) (db w) m = true) ms))
  ∧ (∀ t, t ∉ map table_name (filter (fun m => expired (tableTTLHours this) (db w) m = true) ms) ->
       tables (db w1) !! t = tables (db w) !! t)
  ∧ (∀ t, t ∈ map table_name (filter (fun m => expired (tableTTLHours this) (db w) m = true) ms) ->
       tables (db w1) !! t = None).
Proof.
  intros C F M. rewrite (cleanupOldTables_eval env this w ms C (F _) M). cbn [snd].
  set (sel := filter (fun m => expired (tableTTLHours this) (db w) m = true) ms).
  set (w0 := setDb (db w) (logStatement (SelectOldJobs (tableTTLHours this)) (lease w))).
  assert (S0 : is_Some (job_metadata (db w0))) by (simpl; rewrite M; eauto).
  destruct (afterRows_no_fault env sel w0 F S0) as (_ & B & T).
  split; [|split; [|split; [|split]]].
  - destruct (afterRows_meta_some sel w0 S0) as [ms1 H]. exists ms1. exact H.
  - simpl. rewrite afterRows_now. reflexivity.
  - intros x Hx. simpl in Hx. pose proof (B x Hx) as Nx.
    apply afterRows_rows in Hx. unfold metadataRows in Hx. simpl in Hx. rewrite M in Hx.
    split; [exact Hx|]. split; [|exact Nx].
    destruct (expired (tableTTLHours this) (db w) x) eqn:E; [|reflexivity].
    exfalso. apply Nx. apply (list_elem_of_fmap_2 job_id). apply list_elem_of_filter. auto.
  - intros t Ht. simpl. rewrite afterRows_tables by exact Ht. reflexivity.
  - intros t Ht. simpl. apply T. exact Ht.
Qed.

End Sweeps.

(** X14. A sweep on a database where no job has run yet: the table
    [job_metadata] does not exist, the SELECT is refused, the sweep rejects
    with that error after sending nothing else, the connection is given
    back, the database is as it was, and the timer callback writes the
    error to the console and keeps the instance as it is. *)
Theorem cleanupOldTables_no_metadata_table (this : Sentinel) (env : Env) (w : World) :
  connect_error env = None ->
  fault env (length (sent w)) = None ->
  job_metadata (db w) = None ->
  ∃ w', cleanupOldTables this env w = (Throws (missingRelation "job_metadata"), w')
        ∧ db w' = db w
        ∧ sent w' = sent w ++ [SelectOldJobs (tableTTLHours this)]
        ∧ leased w' = leased w
        ∧ cleanupTick this env w =
            (this, consoleError ["Error during table cleanup:";
                                 message (missingRelation "job_metadata")] w').
Proof.
  intros C F M.
  assert (E : cleanupOldTables this env w
              = (Throws (missingRelation "job_metadata"),
                 release (logStatement (SelectOldJobs (tableTTLHours this)) (lease w)))).
  { unfold cleanupOldTables, bind, connect, finally, clientQuery.
    rewrite C. simpl. rewrite F, M. reflexivity. }
  eexists. split; [exact E|]. unfold cleanupTick. rewrite E. repeat split.
Qed.

Lemma cleanupOldTables_no_metadata_table_witness :
  ∃ w', cleanupOldTables Fixture.smallSentinel Fixture.env0 Fixture.w0
        = (Throws (missingRelation "job_metadata"), w')
        ∧ db w' = Fixture.emptyDb
        ∧ sent w' = [SelectOldJobs 24]
        ∧ leased w' = 0
        ∧ cleanupTick Fixture.smallSentinel Fixture.env0 Fixture.w0 =
            (Fixture.smallSentinel,
             consoleError ["Error during table cleanup:";
                           message (missingRelation "job_metadata")] w').
Proof.
  apply (cleanupOldTables_no_metadata_table Fixture.smallSentinel Fixture.env0 Fixture.w0);
    reflexivity.
Defined.



(** X16. Expiry, end to end: after a sweep on which no statement fails,
    the table of every job past the TTL is gone and the lookup of its
    identifier returns [null]. *)
Theorem expired_job_forgotten
    (this : Sentinel) (env : Env) (w : World) (ms : list MetaRow) (m : MetaRow) :
  connect_error env = None -> (∀ n, fault env n = None) ->
  job_metadata (db w) = Some ms ->
  m ∈ ms -> expired (tableTTLHours this) (db w) m = true ->
  let w1 := snd (cleanupOldTables this env w) in
  tables (db w1) !! table_name m = None
  ∧ fst (getTableNameForJob env (job_id m) w1) = Ok ANull.
Proof.
  intros C F M Hm Hx w1.
  destruct (swept_none_expired env this w ms C F M) as ([ms1 M1] & _ & R1 & _ & T1).
  fold w1 in M1, R1, T1.
  assert (Sel : m ∈ filter (fun m => expired (tableTTLHours this) (db w) m = true) ms)
    by (apply list_elem_of_filter; auto).
  split; [apply T1, (list_elem_of_fmap_2 table_name), Sel|].
  rewrite getTableNameForJob_eval. unfold lookupFailure. rewrite C, F, M1.
  rewrite filter_none; [reflexivity|].
  intros x Hx' E. apply String.eqb_eq in E.
  destruct (R1 x Hx') as (_ & _ & N). apply N. rewrite E.
  apply (list_elem_of_fmap_2 job_id), Sel.
Qed.

Lemma expired_job_forgotten_witness :
  tables (db (snd (cleanupOldTables Fixture.smallSentinel Fixture.env0 Fixture.sweepWorld)))
    !! tableNameOf Fixture.uuidA = None
  ∧ fst (getTableNameForJob Fixture.env0 Fixture.uuidA
           (snd (cleanupOldTables Fixture.smallSentinel Fixture.env0 Fixture.sweepWorld)))
    = Ok ANull.
Proof.
  apply (expired_job_forgotten Fixture.smallSentinel Fixture.env0 Fixture.sweepWorld
           [Fixture.oldRow; Fixture.freshRow] Fixture.oldRow);
    [reflexivity|intros; reflexivity|reflexivity|left|reflexivity].
Defined.

(** X17. A sweep on which no statement fails keeps the metadata free of
    orphans, when distinct rows name distinct tables: if every metadata
    row named an existing table before, so it is after. *)
Theorem cleanupOldTables_keeps_no_orphan
    (this : Sentinel) (env : Env) (w : World) (ms : list MetaRow) :
  connect_error env = None -> (∀ n, fault env n = None) ->
  job_metadata (db w) = Some ms ->
  NoDup (map table_name ms) ->
  (∀ m, ¬ orphaned (db w) m) ->
  ∀ m, ¬ orphaned (db (snd (cleanupOldTables this env w))) m.
Proof.
  intros C F M N O m [Hm Ht].
  destruct (swept_none_expired env this w ms C F M) as (_ & _ & R1 & T1 & _).
  destruct (R1 m Hm) as (Hin & Hx & _).
  apply (O m). split; [unfold metadataRows; rewrite M; exact Hin|].
  rewrite <- Ht. symmetry. apply T1.
  intros Hn. apply list_elem_of_fmap in Hn as (m' & E & Hm').
  apply list_elem_of_filter in Hm' as [Hx' Hin'].
  assert (m = m') by (eapply (NoDup_map_inj table_name); eauto). congruence.
Qed.

Lemma cleanupOldTables_keeps_no_orphan_witness :
  ¬ orphaned (db (snd (cleanupOldTables Fixture.smallSentinel Fixture.env0
                         Fixture.sweepWorld))) Fixture.freshRow
  ∧ ¬ orphaned (db (snd (cleanupOldTables Fixture.smallSentinel Fixture.env0
                           Fixture.sweepWorld))) Fixture.oldRow.
Proof.
  assert (O : ∀ m, ¬ orphaned (db Fixture.sweepWorld) m).
  { intros m [Hm Ht]. unfold metadataRows in Hm. simpl in Hm.
    apply elem_of_cons in Hm as [->|Hm]; [vm_compute in Ht; discriminate Ht|].
    apply list_elem_of_singleton in Hm. subst m. vm_compute in Ht. discriminate Ht. }
  split;
    apply (cleanupOldTables_keeps_no_orphan Fixture.smallSentinel Fixture.env0
             Fixture.sweepWorld [Fixture.oldRow; Fixture.freshRow]);
    first [reflexivity | intros; reflexivity
          | apply (bool_decide_unpack _); vm_compute; reflexivity | exact O].
Defined.

(** X18. When the DROP of a row succeeds and its DELETE fails, the sweep
    of the row resolves all the same, writes the failure to the console,
    and leaves the metadata row behind without its table. *)
Theorem sweepRow_delete_failure (env : Env) (w : World) (m : MetaRow) (e : JsError) :
  fault env (length (sent w)) = None ->
  fault env (S (length (sent w))) = Some e ->
  m ∈ metadataRows (db w) ->
  ∃ w', sweepRow env (sweepRowOf m) w = (Ok tt, w')
        ∧ orphaned (db w') m
        ∧ console w' = console w ++ [["Error dropping table:"; table_name m; message e]]
        ∧ sent w' = sent w ++ [DropTableIfExists (table_name m);
                               DeleteMetadata (AString (job_id m))].
Proof.
  intros F1 F2 Hm. rewrite sweepRow_eval.
  assert (O : rowOutcome env w = DeleteFailed e) by (unfold rowOutcome; rewrite F1, F2; reflexivity).
  rewrite O. eexists. split; [reflexivity|]. simpl.
  split; [|split; reflexivity].
  split; [exact Hm|]. simpl. apply lookup_delete_eq.
Qed.

Lemma sweepRow_delete_failure_witness :
  ∃ w', sweepRow (Fixture.envFaultAt 1) (sweepRowOf Fixture.oldRow) Fixture.sweepWorld = (Ok tt, w')
        ∧ orphaned (db w') Fixture.oldRow
        ∧ console w' = [["Error dropping table:"; tableNameOf Fixture.uuidA;
                         "connection terminated"]]
        ∧ sent w' = [DropTableIfExists (tableNameOf Fixture.uuidA);
                     DeleteMetadata (AString Fixture.uuidA)].
Proof.
  apply (sweepRow_delete_failure (Fixture.envFaultAt 1) Fixture.sweepWorld Fixture.oldRow
           (Error "connection terminated")); [reflexivity|reflexivity|left].
Defined.

(** ** The life of the instance *)


(** ** What the queue holds *)

(** X5. Submissions only ever add entries whose query passes validation:
    if every waiting entry holds such a query, so does every waiting entry
    after any number of calls. *)
Theorem submitAll_only_valid {U : CaseMapping} (this : Sentinel) (env : Env) (reqs : list Request) (w : World) :
  Forall (fun e => validateSelectQuery (query e) = Ok tt) (waiting w) ->
  Forall (fun e => validateSelectQuery (query e) = Ok tt) (waiting (submitAll this env reqs w)).
Proof.
  revert w. induction reqs as [|r reqs IH]; intros w H; simpl; [exact H|].
  apply IH.
  pose proof (createQueryJob_cases this env (req_uuid r) (req_query r) (req_params r) w) as O.
  destruct (createQueryJob this env (req_uuid r) (req_query r) (req_params r) w) as [[id|e] w'];
    simpl in *.
  - destruct O as (_ & V & _ & _ & ->). simpl. apply Forall_app. split; [exact H|].
    constructor; [exact V|constructor].
  - subst w'. exact H.
Qed.

Lemma submitAll_only_valid_witness :
  Forall (fun e => validateSelectQuery (U := Fixture.caseMapping) (query e) = Ok tt)
    (waiting (submitAll (U := Fixture.caseMapping) newSentinel Fixture.env0 Fixture.requests
                Fixture.w0)).
Proof.
  apply (submitAll_only_valid (U := Fixture.caseMapping) newSentinel Fixture.env0 Fixture.requests Fixture.w0).
  constructor.
Defined.

(** ** From submission to lookup *)



(** X21. A job not yet past the TTL is still found after a sweep, even one
    on which statements failed: with unique identifiers and distinct table
    names in [job_metadata], the lookup of its identifier returns its table
    name and the table is as it was. *)
Theorem fresh_job_still_found
    (this : Sentinel) (env env' : Env) (w : World) (ms : list MetaRow) (m : MetaRow) :
  connect_error env = None -> fault env (length (sent w)) = None ->
  job_metadata (db w) = Some ms ->
  NoDup (map job_id ms) -> NoDup (map table_name ms) ->
  m ∈ ms -> expired (tableTTLHours this) (db w) m = false ->
  let w1 := snd (cleanupOldTables this env w) in
  connect_error env' = None -> fault env' (length (sent w1)) = None ->
  fst (getTableNameForJob env' (job_id m) w1) = Ok (AString (table_name m))
  ∧ tables (db w1) !! table_name m = tables (db w) !! table_name m.
Proof.
  intros C F M Nj Nt Hm Hx w1 C' F'.
  unfold w1 in *. rewrite (cleanupOldTables_eval env this w ms C F M) in *. cbn [snd] in *.
  remember (filter (fun m => expired (tableTTLHours this) (db w) m = true) ms) as sel eqn:Hsel.
  remember (setDb (db w) (logStatement (SelectOldJobs (tableTTLHours this)) (lease w)))
    as w0 eqn:Hw0.
  assert (D0 : db w0 = db w) by (subst w0; reflexivity).
  assert (Sel : ∀ x, x ∈ sel -> x ∈ ms ∧ expired (tableTTLHours this) (db w) x = true).
  { intros x Hs. subst sel. apply list_elem_of_filter in Hs. tauto. }
  assert (S0 : is_Some (job_metadata (db w0))) by (rewrite D0, M; eauto).
  change (sent (release (afterRows env sel w0))) with (sent (afterRows env sel w0)) in F'.
  destruct (afterRows_meta_some env sel w0 S0) as [ms1 M1].
  assert (K : m ∈ metadataRows (db (afterRows env sel w0))).
  { apply afterRows_keeps; [unfold metadataRows; rewrite D0, M; exact Hm|].
    intros Hin. apply list_elem_of_fmap in Hin as (m' & E & Hm').
    apply Sel in Hm' as [Hm' Hx'].
    assert (m = m') by (eapply (NoDup_map_inj job_id); eauto). congruence. }
  split.
  - rewrite getTableNameForJob_eval. unfold lookupFailure. rewrite C'.
    change (sent (release (afterRows env sel w0))) with (sent (afterRows env sel w0)).
    change (db (release (afterRows env sel w0))) with (db (afterRows env sel w0)).
    rewrite F', M1.
    destruct (filter (λ m0 : MetaRow, String.eqb (job_id m0) (job_id m) = true)
                (metadataRows (db (afterRows env sel w0)))) as [|x l] eqn:Fl.
    + exfalso. assert (Hin : m ∈ filter (λ m0 : MetaRow, String.eqb (job_id m0) (job_id m) = true)
                                  (metadataRows (db (afterRows env sel w0)))).
      { apply list_elem_of_filter. split; [apply String.eqb_refl|exact K]. }
      rewrite Fl in Hin. apply elem_of_nil in Hin. exact Hin.
    + assert (Hin : x ∈ filter (λ m0 : MetaRow, String.eqb (job_id m0) (job_id m) = true)
                          (metadataRows (db (afterRows env sel w0))))
        by (rewrite Fl; left).
      apply list_elem_of_filter in Hin as [Ej Hin]. apply String.eqb_eq in Ej.
      apply afterRows_rows in Hin. unfold metadataRows in Hin. rewrite D0, M in Hin.
      assert (x = m) by (eapply (NoDup_map_inj job_id); eauto). subst x. reflexivity.
  - change (db (release (afterRows env sel w0))) with (db (afterRows env sel w0)).
    rewrite afterRows_tables; [rewrite D0; reflexivity|].
    intros Hin. apply list_elem_of_fmap in Hin as (m' & E & Hm').
    apply Sel in Hm' as [Hm' Hx'].
    assert (m = m') by (eapply (NoDup_map_inj table_name); eauto). congruence.
Qed.

Lemma fresh_job_still_found_witness :
  fst (getTableNameForJob Fixture.env0 Fixture.uuidB
         (snd (cleanupOldTables Fixture.smallSentinel (Fixture.envFaultAt 1) Fixture.sweepWorld)))
    = Ok (AString (tableNameOf Fixture.uuidB))
  ∧ tables (db (snd (cleanupOldTables Fixture.smallSentinel (Fixture.envFaultAt 1)
                       Fixture.sweepWorld))) !! tableNameOf Fixture.uuidB
    = Some Fixture.someTable.
Proof.
  destruct (fresh_job_still_found Fixture.smallSentinel (Fixture.envFaultAt 1) Fixture.env0
              Fixture.sweepWorld [Fixture.oldRow; Fixture.freshRow] Fixture.freshRow)
    as [L T];
    [reflexivity|reflexivity|reflexivity
    |apply (bool_decide_unpack _); vm_compute; reflexivity
    |apply (bool_decide_unpack _); vm_compute; reflexivity
    |right; left|reflexivity|reflexivity|reflexivity|].
  split; [exact L|]. change (table_name Fixture.freshRow) with (tableNameOf Fixture.uuidB) in T.
  rewrite T. vm_compute. reflexivity.
Defined.
